(** * A shallow embedding of the backtracking CSP solver of [src/main.py]

    The class [CSP] keeps three pieces of configuration (variables, domains,
    constraints), one derived structure built in [__init__] (the
    [defaultdict(list)] of neighbours) and, during [solve()], one shared
    mutable dictionary (the assignment) that every method reads and
    mutates in place.  Python exceptions keep the mutations made before
    they were raised, so the monad below returns the final state on both
    the normal and the exceptional path. *)

From Stdlib Require Import ZArith Sorting.Sorted Lia.
From stdpp Require Import base gmap list strings.

(** ** Data model *)

Definition var := string.

(** A constraint [(vars_, condition)]; [condition(star values)] is applied to
    the list of values of [vars_], in tuple order. *)
Record constraint := mkConstraint {
  c_vars : list var;
  c_pred : list Z -> bool
}.

(** The constructor arguments [variables], [domains], [constraints]. *)
Record csp := mkCSP {
  variables : list var;
  domains : gmap var (list Z);
  constraints : list constraint
}.

Abbreviation assignment := (gmap var Z).

(** [self.neighbors[v]] read without inserting: the list, or [[]]. *)
Definition nb_get (n : gmap var (list var)) (v : var) : list var :=
  default [] (n !! v).

(** [_create_constraint_graph]: for every constraint and every variable
    [var] of its tuple, [neighbors[var].extend([v for v in vars_ if v != var])]. *)
Definition create_constraint_graph (cs : list constraint) : gmap var (list var) :=
  fold_left (fun n c =>
    fold_left (fun n v =>
      <[v := nb_get n v ++ filter (fun w => w <> v) (c_vars c)]> n)
      (c_vars c) n) cs ∅.

(** [values = [assignment.get(v, None) for v in vars_]]; [None not in values]
    holds exactly when this returns [Some] of the plain values. *)
Fixpoint all_present (values : list (option Z)) : option (list Z) :=
  match values with
  | [] => Some []
  | None :: _ => None
  | Some x :: values' =>
      match all_present values' with
      | Some xs => Some (x :: xs)
      | None => None
      end
  end.

(** [_is_assignment_valid]: set the tentative value, scan the constraints
    that mention [variable], [del assignment[variable]] before returning.
    It never raises (the tentative key is always present for the [del]), so
    it is a pure function from the assignment to the result and the new
    assignment. *)
Definition is_assignment_valid (cs : list constraint) (variable : var)
    (value : Z) (a : assignment) : bool * assignment :=
  let a := <[variable := value]> a in
  (fix loop (cs : list constraint) : bool * assignment :=
     match cs with
     | [] => (true, delete variable a)
     | c :: cs' =>
         if decide (variable ∈ c_vars c) then
           match all_present (map (fun v => a !! v) (c_vars c)) with
           | Some values =>
               if c_pred c values then loop cs' else (false, delete variable a)
           | None => loop cs'
           end
         else loop cs'
     end) cs.

(** ** The state and the exception monad *)

(** Python exceptions that the solver can raise: [KeyError] (a missing key
    in [self.domains], or a [del] of an absent key), [ValueError] ([max] of
    an empty sequence).  [OutOfFuel] is not a Python exception: it is the
    fuel of the recursion below running out, which the lemmas show never
    happens from [solve]. *)
Inductive exn := KeyError | ValueError | OutOfFuel.

(** [asg] is the shared assignment dictionary, [nbrs] is [self.neighbors].
    [entries] is a ghost field: the assignment at the entry of every call of
    [_recursive_backtracking], most recent first; the program never reads
    it. *)
Record st := mkSt {
  asg : assignment;
  nbrs : gmap var (list var);
  entries : list assignment
}.

Definition M (A : Type) : Type := st -> (exn + A) * st.

Definition ret {A} (x : A) : M A := fun s => (inr x, s).

Definition bind {A B} (m : M A) (f : A -> M B) : M B :=
  fun s => match m s with
           | (inl e, s') => (inl e, s')
           | (inr x, s') => f x s'
           end.

Definition raise {A} (e : exn) : M A := fun s => (inl e, s).

Notation "'let*' x := m 'in' k" := (bind m (fun x => k))
  (at level 200, x name, m at level 100, k at level 200).

Definition get_asg : M assignment := fun s => (inr (asg s), s).

(** [assignment[v] = x] *)
Definition set_asg (v : var) (x : Z) : M unit :=
  fun s => (inr tt, mkSt (<[v := x]> (asg s)) (nbrs s) (entries s)).

(** [del assignment[v]]: a [KeyError] when [v] is absent. *)
Definition del_asg (v : var) : M unit :=
  fun s => match asg s !! v with
           | Some _ => (inr tt, mkSt (delete v (asg s)) (nbrs s) (entries s))
           | None => (inl KeyError, s)
           end.

(** [self.neighbors[v]] on a [defaultdict(list)]: a missing key is
    inserted with an empty list. *)
Definition neighbors_of (v : var) : M (list var) :=
  fun s => match nbrs s !! v with
           | Some l => (inr l, s)
           | None => (inr [], mkSt (asg s) (<[v := []]> (nbrs s)) (entries s))
           end.

Definition log_entry : M unit :=
  fun s => (inr tt, mkSt (asg s) (nbrs s) (asg s :: entries s)).

Fixpoint mmap {A B} (f : A -> M B) (l : list A) : M (list B) :=
  match l with
  | [] => ret []
  | x :: l' => let* y := f x in let* ys := mmap f l' in ret (y :: ys)
  end.

Fixpoint mfold {A B} (f : B -> A -> M B) (acc : B) (l : list A) : M B :=
  match l with
  | [] => ret acc
  | x :: l' => let* acc' := f acc x in mfold f acc' l'
  end.

(** Python's [sorted] is stable, so every stable sort gives the same
    list; this one is an insertion sort on (element, key) pairs: an element
    goes after every element of key lower or equal. *)
Fixpoint insert_by_key {A} (p : A * nat) (l : list (A * nat)) : list (A * nat) :=
  match l with
  | [] => [p]
  | q :: l' => if snd q <=? snd p then q :: insert_by_key p l' else p :: l
  end.

Definition stable_sort {A} (l : list (A * nat)) : list (A * nat) :=
  fold_left (fun acc p => insert_by_key p acc) l [].

(** [sorted(l, key=key)]: the keys are computed first, in list order. *)
Definition sorted_by {A} (key : A -> M nat) (l : list A) : M (list A) :=
  let* ks := mmap key l in ret (map fst (stable_sort (zip l ks))).

(** The loop of [max(l, key=key)] after its first element: an element
    replaces the current best only when its key is strictly greater. *)
Fixpoint max_go {A} (key : A -> M nat) (best : A) (kbest : nat) (l : list A) : M A :=
  match l with
  | [] => ret best
  | y :: l' =>
      let* ky := key y in
      if kbest <? ky then max_go key y ky l' else max_go key best kbest l'
  end.

(** [max(l, key=key)]: [ValueError] on an empty sequence. *)
Definition max_by {A} (key : A -> M nat) (l : list A) : M A :=
  match l with
  | [] => raise ValueError
  | x :: l' => let* kx := key x in max_go key x kx l'
  end.

(** ** The methods of [CSP] *)

Section Solver.

Context (P : csp).

(** [self.domains[v]] on a plain dict. *)
Definition domain_of (v : var) : M (list Z) :=
  fun s => match domains P !! v with
           | Some d => (inr d, s)
           | None => (inl KeyError, s)
           end.

Definition is_valid (variable : var) (value : Z) : M bool :=
  fun s => let (b, a') := is_assignment_valid (constraints P) variable value (asg s) in
           (inr b, mkSt a' (nbrs s) (entries s)).

(** [[v for v in self.variables if v not in assignment]] *)
Definition unassigned_of (a : assignment) : list var :=
  filter (fun v => a !! v = None) (variables P).

Definition domain_size (v : var) : M nat :=
  let* d := domain_of v in ret (length d).

Definition degree (v : var) : M nat :=
  let* l := neighbors_of v in ret (length l).

(** [_select_next_variable] *)
Definition select_next_variable : M var :=
  let* a := get_asg in
  let* min_domain_vars := sorted_by domain_size (unassigned_of a) in
  max_by degree min_domain_vars.

(** [sum(not self._is_assignment_valid(neighbor, val, assignment)
         for val in self.domains[neighbor])] *)
Definition neighbor_conflicts (neighbor : var) : M nat :=
  let* d := domain_of neighbor in
  mfold (fun n val => let* ok := is_valid neighbor val in
                      ret (if ok then n else S n)) 0 d.

(** [count_conflicts(value)] inside [_order_values_by_least_conflicts]. *)
Definition count_conflicts (variable : var) (value : Z) : M nat :=
  let* _ := set_asg variable value in
  let* ns := neighbors_of variable in
  let* conflict_count :=
    mfold (fun cc neighbor =>
             let* a := get_asg in
             if decide (a !! neighbor = None) then
               let* k := neighbor_conflicts neighbor in ret (cc + k)
             else ret cc) 0 ns in
  let* _ := del_asg variable in
  ret conflict_count.

(** [_order_values_by_least_conflicts] *)
Definition order_values_by_least_conflicts (variable : var) : M (list Z) :=
  let* d := domain_of variable in
  sorted_by (count_conflicts variable) d.

(** [if result:] on [None] or on a dict (falsy when empty). *)
Definition truthy (r : option assignment) : bool :=
  match r with
  | Some a => negb (size a =? 0)
  | None => false
  end.

(** The [for value in ...] loop of [_recursive_backtracking]; [recurse] is
    the recursive call. *)
Fixpoint try_values (recurse : M (option assignment)) (variable : var)
    (vals : list Z) : M (option assignment) :=
  match vals with
  | [] => ret None
  | value :: vals' =>
      let* ok := is_valid variable value in
      if ok then
        let* _ := set_asg variable value in
        let* result := recurse in
        if truthy result then ret result
        else let* _ := del_asg variable in try_values recurse variable vals'
      else try_values recurse variable vals'
  end.

(** [_recursive_backtracking], with a fuel bound on the recursion depth. *)
Fixpoint recursive_backtracking (fuel : nat) : M (option assignment) :=
  let* _ := log_entry in
  let* a := get_asg in
  if size a =? length (variables P) then ret (Some a) else
  match fuel with
  | O => raise OutOfFuel
  | S fuel' =>
      let* variable := select_next_variable in
      let* vals := order_values_by_least_conflicts variable in
      try_values (recursive_backtracking fuel') variable vals
  end.

(** The state right after [CSP(variables, domains, constraints)]. *)
Definition init_state : st :=
  mkSt ∅ (create_constraint_graph (constraints P)) [].

(** [solve()] on a freshly constructed instance: [_recursive_backtracking({})]. *)
Definition solve : (exn + option assignment) * st :=
  recursive_backtracking (S (length (variables P))) init_state.

End Solver.

(** ** The instance of [main.py] *)

Definition neq2 (l : list Z) : bool :=
  match l with [a; b] => negb (a =? b)%Z | _ => false end.
Definition eq2 (l : list Z) : bool :=
  match l with [a; b] => (a =? b)%Z | _ => false end.
Definition distinct3 (l : list Z) : bool :=
  match l with
  | [a; b; c] => negb (a =? b)%Z && negb (b =? c)%Z && negb (a =? c)%Z
  | _ => false
  end.
Definition implies_b1_d2 (l : list Z) : bool :=
  match l with [b; d] => negb (b =? 1)%Z || (d =? 2)%Z | _ => false end.

Definition example : csp :=
  mkCSP ["A"; "B"; "C"; "D"; "E"]%string
    (list_to_map [("A", [1;2;3]); ("B", [1;2;3]); ("C", [1;2;3]);
                  ("D", [1;2;3]); ("E", [1;2;3])]%string%Z)
    [mkConstraint ["A"; "B"]%string neq2;
     mkConstraint ["C"; "E"]%string eq2;
     mkConstraint ["A"; "B"; "C"]%string distinct3;
     mkConstraint ["B"; "D"]%string implies_b1_d2;
     mkConstraint ["B"; "C"]%string neq2;
     mkConstraint ["D"; "E"]%string neq2].

(** ** Other instances *)

Definition never (_ : list Z) : bool := false.

Definition always (_ : list Z) : bool := true.

(** A constraint over a variable [Z] that has a domain but is not listed. *)
Definition unlisted_csp : csp :=
  mkCSP ["A"]%string (list_to_map [("A", [1]); ("Z", [1])]%string%Z)
    [mkConstraint ["A"; "Z"]%string never].

(** A constraint over the empty tuple. *)
Definition empty_tuple_csp : csp :=
  mkCSP ["A"]%string (list_to_map [("A", [1])]%string%Z) [mkConstraint [] never].

(** Three variables; [A] has the smallest domain, [B] and [C] share a
    constraint. *)
Definition mrv_csp : csp :=
  mkCSP ["A"; "B"; "C"]%string
    (list_to_map [("A", [1]); ("B", [1; 2]); ("C", [1; 2])]%string%Z)
    [mkConstraint ["B"; "C"]%string always].

(** One variable, one value, no constraint. *)
Definition one_var_csp : csp :=
  mkCSP ["A"]%string (list_to_map [("A", [1])]%string%Z) [].

(** Listed [A] has an empty domain, listed [B] has none. *)
Definition missing_domain_csp : csp :=
  mkCSP ["A"; "B"]%string (list_to_map [("A", [])]%string) [].

(** Listed [A] and [B]; [B] has an empty domain. *)
Definition empty_domain_csp : csp :=
  mkCSP ["A"; "B"]%string (list_to_map [("A", [1; 2]); ("B", [])]%string%Z)
    [mkConstraint ["A"; "B"]%string neq2].

(** Two listed variables, no constraints. *)
Definition free_csp : csp :=
  mkCSP ["A"; "B"]%string (list_to_map [("A", [2; 1]); ("B", [3; 1])]%string%Z) [].

(** The variable [A] listed twice. *)
Definition duplicate_csp : csp :=
  mkCSP ["A"; "A"]%string (list_to_map [("A", [1])]%string%Z) [].

(** ** Notions of the specification *)

(** A computation is [stable] for a preorder [R] on states when its final
    state is related to its initial one, on every exit. *)
Definition stable (R : st -> st -> Prop) {A} (m : M A) : Prop :=
  forall s, R s (snd (m s)).

(** [stable_ok R m]: the final state is related to the initial one whenever
    [m] returns normally. *)
Definition stable_ok (R : st -> st -> Prop) {A} (m : M A) : Prop :=
  forall s x s', m s = (inr x, s') -> R s s'.

(** [self.neighbors] only ever gains keys bound to an empty list. *)
Definition nbrs_ext (n n' : gmap var (list var)) : Prop :=
  forall k, n' !! k = n !! k \/ (n !! k = None /\ n' !! k = Some []).

Definition nbrs_rel (s s' : st) : Prop := nbrs_ext (nbrs s) (nbrs s').

(** The entries log is written by [_recursive_backtracking] only. *)
Definition entries_rel (s s' : st) : Prop := entries s' = entries s.

Definition asg_eq (s s' : st) : Prop := asg s' = asg s.

(** [_is_assignment_valid] on a variable absent from the assignment leaves
    the assignment as it was. *)
Definition asg_free (v : var) (s s' : st) : Prop :=
  asg s !! v = None -> asg s' = asg s.

(** The values of a tuple under an assignment, when all of them are bound. *)
Definition tuple_values (a : assignment) (vs : list var) : option (list Z) :=
  all_present (map (fun v => a !! v) vs).

(** One step of the loop over the neighbours in [count_conflicts]. *)
Definition conflicts_step (P : csp) (cc : nat) (neighbor : var) : M nat :=
  let* a := get_asg in
  if decide (a !! neighbor = None) then
    let* k := neighbor_conflicts P neighbor in ret (cc + k)
  else ret cc.

(** What a call of [_recursive_backtracking] from assignment [a0] ensures,
    for an invariant [Q] of the assignments. *)
Definition rb_post (P : csp) (Q : assignment -> Prop)
    (a0 : assignment) (r : exn + option assignment) (s' : st) : Prop :=
  Forall Q (entries s') /\
  (r = inr None -> asg s' = a0) /\
  (forall x, r = inr (Some x) -> asg s' = x /\ Q x /\ size x = length (variables P)).

Definition rb_good (P : csp) (Q : assignment -> Prop) (m : M (option assignment)) : Prop :=
  forall s, Q (asg s) -> Forall Q (entries s) ->
  rb_post P Q (asg s) (fst (m s)) (snd (m s)).

(** The invariant of the spec: every constraint whose (non-empty) tuple is
    fully bound holds on the bound values. *)
Definition consistent (P : csp) (a : assignment) : Prop :=
  forall c vals, c ∈ constraints P -> c_vars c <> [] ->
  tuple_values a (c_vars c) = Some vals -> c_pred c vals = true.

(** Every key of the assignment is a listed variable. *)
Definition keys_in (P : csp) (a : assignment) : Prop :=
  forall k, is_Some (a !! k) -> k ∈ variables P.

(** The constraints range over non-empty tuples of listed variables. *)
Definition constraints_over_variables (P : csp) : bool :=
  forallb (fun c => negb (bool_decide (c_vars c = [])) &&
                    forallb (fun w => bool_decide (w ∈ variables P)) (c_vars c))
    (constraints P).

(** Pairs ordered by their key. *)
Definition key_sorted {A} (p q : A * nat) : Prop := p.2 <= q.2.

(** [len(self.domains[v])], [0] for a variable without a domain. *)
Definition domain_len (P : csp) (v : var) : nat := length (default [] (domains P !! v)).

(** Every neighbour recorded in the graph has a domain. *)
Definition nbrs_ok (P : csp) (n : gmap var (list var)) : Prop :=
  forall k l w, n !! k = Some l -> w ∈ l -> is_Some (domains P !! w).

(** Every binding is a listed variable bound to a value of its domain. *)
Definition asg_ok (P : csp) (a : assignment) : Prop :=
  forall k x, a !! k = Some x ->
    k ∈ variables P /\ exists d, domains P !! k = Some d /\ x ∈ d.

(** Every listed variable and every variable of a constraint tuple is a
    key of [domains]. *)
Definition domains_complete (P : csp) : bool :=
  forallb (fun v => bool_decide (is_Some (domains P !! v))) (variables P) &&
  forallb (fun c => forallb (fun w => bool_decide (is_Some (domains P !! w))) (c_vars c))
    (constraints P).

(** Every neighbour list is empty. *)
Definition nbrs_empty (n : gmap var (list var)) : Prop :=
  forall k l, n !! k = Some l -> l = [].

(** Every listed variable has a non-empty domain. *)
Definition domains_nonempty (P : csp) : bool :=
  forallb (fun v => match domains P !! v with Some (_ :: _) => true | _ => false end)
    (variables P).

(** Every binding is a listed variable bound to the first value of its
    domain. *)
Definition first_ok (P : csp) (a : assignment) : Prop :=
  forall k x, a !! k = Some x ->
    k ∈ variables P /\ exists d, domains P !! k = Some (x :: d).

(** The number of values of [w]'s domain that [_is_assignment_valid]
    rejects under the assignment [a]: the inner loop of [count_conflicts]. *)
Definition rejected_values (P : csp) (a : assignment) (w : var) : nat :=
  length (filter (fun y => fst (is_assignment_valid (constraints P) w y a) = false)
            (default [] (domains P !! w))).

(** The value [count_conflicts(variable, value)] computes: with [variable]
    bound to [value], the rejected values summed over the unassigned
    neighbours of [variable]. *)
Definition conflicts_of (P : csp) (n : gmap var (list var)) (a : assignment)
    (variable : var) (value : Z) : nat :=
  let a' := <[variable := value]> a in
  sum_list_with (fun w => if decide (a' !! w = None) then rejected_values P a' w else 0)
    (nb_get n variable).

(** [sol] binds every listed variable to a value of its domain and satisfies
    every constraint whose tuple it binds completely. *)
Definition is_solution (P : csp) (sol : assignment) : bool :=
  forallb (fun v => match sol !! v, domains P !! v with
                    | Some x, Some d => bool_decide (x ∈ d)
                    | _, _ => false
                    end) (variables P) &&
  forallb (fun c => match tuple_values sol (c_vars c) with
                    | Some vals => c_pred c vals
                    | None => true
                    end) (constraints P).

(** The computation never stops for lack of recursion depth. *)
Definition no_fuel_out {A} (m : M A) : Prop :=
  forall s, fst (m s) <> inl OutOfFuel.

(** * Lemmas *)


Example example_solution :
  fst (solve example) = inr (Some (list_to_map
    [("A", 3); ("B", 2); ("C", 1); ("D", 2); ("E", 1)]%string%Z)).
Proof. vm_compute. reflexivity. Qed.

(** ** Generic lemmas on the monad *)

Section Stable.

Context (R : st -> st -> Prop) `{!PreOrder R}.

Lemma stable_ret {A} (x : A) : stable R (ret x).
Proof. intros s. simpl. reflexivity. Qed.

Lemma stable_raise {A} (e : exn) : stable R (@raise A e).
Proof. intros s. simpl. reflexivity. Qed.

Lemma stable_bind {A B} (m : M A) (f : A -> M B) :
  stable R m -> (forall x, stable R (f x)) -> stable R (bind m f).
Proof.
  intros Hm Hf s. unfold bind. specialize (Hm s).
  destruct (m s) as [[e|x] s'] eqn:E; simpl in *; [done|].
  etrans; [exact Hm | apply Hf].
Qed.

Lemma stable_mmap {A B} (f : A -> M B) (l : list A) :
  (forall x, stable R (f x)) -> stable R (mmap f l).
Proof.
  intros Hf. induction l as [|x l IH]; simpl.
  - apply stable_ret.
  - apply stable_bind; [apply Hf|]. intros y.
    apply stable_bind; [exact IH|]. intros ys. apply stable_ret.
Qed.

Lemma stable_mfold {A B} (f : B -> A -> M B) (l : list A) :
  (forall acc x, stable R (f acc x)) -> forall acc, stable R (mfold f acc l).
Proof.
  intros Hf. induction l as [|x l IH]; intros acc; simpl.
  - apply stable_ret.
  - apply stable_bind; [apply Hf|]. intros acc'. apply IH.
Qed.

Lemma stable_max_go {A} (key : A -> M nat) (l : list A) :
  (forall x, stable R (key x)) -> forall best kb, stable R (max_go key best kb l).
Proof.
  intros Hk. induction l as [|y l IH]; intros best kb; simpl.
  - apply stable_ret.
  - apply stable_bind; [apply Hk|]. intros ky.
    destruct (kb <? ky); apply IH.
Qed.

Lemma stable_max_by {A} (key : A -> M nat) (l : list A) :
  (forall x, stable R (key x)) -> stable R (max_by key l).
Proof.
  intros Hk. destruct l as [|x l]; simpl.
  - apply stable_raise.
  - apply stable_bind; [apply Hk|]. intros kx. by apply stable_max_go.
Qed.

Lemma stable_sorted_by {A} (key : A -> M nat) (l : list A) :
  (forall x, stable R (key x)) -> stable R (sorted_by key l).
Proof.
  intros Hk. unfold sorted_by. apply stable_bind.
  - by apply stable_mmap.
  - intros ks. apply stable_ret.
Qed.

End Stable.

(** ** [_is_assignment_valid] *)

Section IsValid.

Context (cs : list constraint).

Lemma is_assignment_valid_state variable value a :
  snd (is_assignment_valid cs variable value a) = delete variable a.
Proof.
  unfold is_assignment_valid.
  assert (Hd : delete variable (<[variable := value]> a) = delete variable a)
    by apply delete_insert_eq.
  induction cs as [|c cs' IH]; simpl; [done|].
  destruct (decide (variable ∈ c_vars c)); [|done].
  destruct (all_present _) as [vals|]; [|done].
  destruct (c_pred c vals); done.
Qed.

(** The result: [False] exactly when some constraint mentioning [variable]
    is fully bound under the tentative assignment and its predicate fails. *)
Lemma is_assignment_valid_false variable value a :
  fst (is_assignment_valid cs variable value a) = false <->
  exists c vals, c ∈ cs /\ variable ∈ c_vars c /\
    tuple_values (<[variable := value]> a) (c_vars c) = Some vals /\
    c_pred c vals = false.
Proof.
  unfold is_assignment_valid, tuple_values.
  induction cs as [|c cs' IH]; simpl.
  - split; [done|]. intros (c & vals & Hc & _). set_solver.
  - destruct (decide (variable ∈ c_vars c)) as [Hin|Hnin].
    + destruct (all_present _) as [vals|] eqn:Hv.
      * destruct (c_pred c vals) eqn:Hp.
        -- rewrite IH. split.
           ++ intros (c' & vals' & Hc' & H). exists c', vals'. set_solver.
           ++ intros (c' & vals' & Hc' & Hin' & Hv' & Hp').
              apply elem_of_cons in Hc' as [->|Hc'].
              ** congruence.
              ** by exists c', vals'.
        -- simpl. split; [|done]. intros _. exists c, vals. set_solver.
      * rewrite IH. split.
        -- intros (c' & vals' & Hc' & H). exists c', vals'. set_solver.
        -- intros (c' & vals' & Hc' & Hin' & Hv' & Hp').
           apply elem_of_cons in Hc' as [->|Hc']; [congruence|].
           by exists c', vals'.
    + rewrite IH. split.
      * intros (c' & vals' & Hc' & H). exists c', vals'. set_solver.
      * intros (c' & vals' & Hc' & Hin' & Hv' & Hp').
        apply elem_of_cons in Hc' as [->|Hc']; [done|].
        by exists c', vals'.
Qed.

Lemma is_assignment_valid_true variable value a c vals :
  fst (is_assignment_valid cs variable value a) = true ->
  c ∈ cs -> variable ∈ c_vars c ->
  tuple_values (<[variable := value]> a) (c_vars c) = Some vals ->
  c_pred c vals = true.
Proof.
  intros Hok Hc Hin Hv. destruct (c_pred c vals) eqn:Hp; [done|].
  assert (fst (is_assignment_valid cs variable value a) = false); [|congruence].
  apply is_assignment_valid_false. by exists c, vals.
Qed.

End IsValid.

(** ** Frame lemmas: relations every operation preserves *)

Create HintDb stab.
#[export] Hint Resolve stable_ret stable_raise : stab.

Ltac stab :=
  repeat match goal with
  | |- forall _, _ => intros ?
  | |- stable _ (bind _ _) => apply stable_bind
  | |- stable _ (mmap _ _) => apply stable_mmap
  | |- stable _ (mfold _ _ _) => apply stable_mfold
  | |- stable _ (max_by _ _) => apply stable_max_by
  | |- stable _ (sorted_by _ _) => apply stable_sorted_by
  | |- stable _ (if ?b then _ else _) => destruct b
  | |- PreOrder _ => typeclasses eauto
  | |- stable _ (ret _) => apply stable_ret
  | |- stable _ (raise _) => apply stable_raise
  end; eauto with stab.

Section Frames.

Context (P : csp) (R : st -> st -> Prop) `{!PreOrder R}.
Hypothesis H_get : stable R get_asg.
Hypothesis H_set : forall v x, stable R (set_asg v x).
Hypothesis H_del : forall v, stable R (del_asg v).
Hypothesis H_nb : forall v, stable R (neighbors_of v).
Hypothesis H_dom : forall v, stable R (domain_of P v).
Hypothesis H_valid : forall v x, stable R (is_valid P v x).

#[local] Hint Resolve H_get H_set H_del H_nb H_dom H_valid : stab.

Lemma stable_select : stable R (select_next_variable P).
Proof. unfold select_next_variable, domain_size, degree. stab. Qed.

Lemma stable_count_conflicts v x : stable R (count_conflicts P v x).
Proof. unfold count_conflicts, neighbor_conflicts. stab. Qed.

#[local] Hint Resolve stable_count_conflicts : stab.

Lemma stable_order v : stable R (order_values_by_least_conflicts P v).
Proof. unfold order_values_by_least_conflicts. stab. Qed.

Lemma stable_try_values rec v vals :
  stable R rec -> stable R (try_values P rec v vals).
Proof.
  intros Hrec. induction vals as [|x vals IH]; simpl; stab.
Qed.

Lemma stable_rb :
  stable R log_entry -> forall fuel, stable R (recursive_backtracking P fuel).
Proof.
  intros Hlog fuel. induction fuel as [|fuel IH]; simpl; stab;
    auto using stable_select, stable_order, stable_try_values.
Qed.

End Frames.

#[export] Instance nbrs_rel_preorder : PreOrder nbrs_rel.
Proof.
  split.
  - intros s k. by left.
  - intros s1 s2 s3 H12 H23 k.
    destruct (H12 k) as [E1|[E1 E1']], (H23 k) as [E2|[E2 E2']];
      [left | right | right | ]; split_and?; congruence.
Qed.

#[export] Instance entries_rel_preorder : PreOrder entries_rel.
Proof.
  split.
  - intros s. done.
  - intros s1 s2 s3 H12 H23. unfold entries_rel in *. congruence.
Qed.

Ltac prim := intros s;
  unfold get_asg, set_asg, log_entry, is_valid, domain_of, del_asg, neighbors_of, nbrs_rel,
    nbrs_ext, entries_rel;
  repeat (case_match; simpl); auto.

Section Prims.

Context (P : csp).

Lemma nbrs_get : stable nbrs_rel get_asg.
Proof. prim. Qed.
Lemma nbrs_set v x : stable nbrs_rel (set_asg v x).
Proof. prim. Qed.
Lemma nbrs_del v : stable nbrs_rel (del_asg v).
Proof. prim. Qed.
Lemma nbrs_dom v : stable nbrs_rel (domain_of P v).
Proof. prim. Qed.
Lemma nbrs_valid v x : stable nbrs_rel (is_valid P v x).
Proof. prim. Qed.
Lemma nbrs_log : stable nbrs_rel log_entry.
Proof. prim. Qed.
Lemma nbrs_nb v : stable nbrs_rel (neighbors_of v).
Proof.
  intros s. unfold neighbors_of. destruct (nbrs s !! v) eqn:E; simpl.
  - reflexivity.
  - unfold nbrs_rel, nbrs_ext; simpl. intros k. destruct (decide (k = v)) as [->|Hne].
    + right. by rewrite lookup_insert_eq.
    + left. by rewrite lookup_insert_ne.
Qed.

Lemma entries_get : stable entries_rel get_asg.
Proof. prim. Qed.
Lemma entries_set v x : stable entries_rel (set_asg v x).
Proof. prim. Qed.
Lemma entries_del v : stable entries_rel (del_asg v).
Proof. prim. Qed.
Lemma entries_dom v : stable entries_rel (domain_of P v).
Proof. prim. Qed.
Lemma entries_valid v x : stable entries_rel (is_valid P v x).
Proof. prim. Qed.
Lemma entries_nb v : stable entries_rel (neighbors_of v).
Proof. prim. Qed.

Lemma nbrs_rb fuel : stable nbrs_rel (recursive_backtracking P fuel).
Proof.
  apply stable_rb; auto using nbrs_get, nbrs_set, nbrs_del, nbrs_dom,
    nbrs_valid, nbrs_log, nbrs_nb; typeclasses eauto.
Qed.

Lemma entries_select : stable entries_rel (select_next_variable P).
Proof.
  apply stable_select; auto using entries_get, entries_set, entries_del,
    entries_dom, entries_valid, entries_nb; typeclasses eauto.
Qed.

Lemma entries_order v : stable entries_rel (order_values_by_least_conflicts P v).
Proof.
  apply stable_order; auto using entries_get, entries_set, entries_del,
    entries_dom, entries_valid, entries_nb; typeclasses eauto.
Qed.

End Prims.

(** ** Normal exits *)

Section StableOk.

Context (R : st -> st -> Prop) `{!PreOrder R}.

Lemma stable_ok_of {A} (m : M A) : stable R m -> stable_ok R m.
Proof. intros H s x s' E. specialize (H s). by rewrite E in H. Qed.

Lemma stable_ok_ret {A} (x : A) : stable_ok R (ret x).
Proof. intros s y s' E. injection E as _ <-. reflexivity. Qed.

Lemma stable_ok_raise {A} (e : exn) : stable_ok R (@raise A e).
Proof. intros s y s' E. discriminate E. Qed.

Lemma stable_ok_bind {A B} (m : M A) (f : A -> M B) :
  stable_ok R m -> (forall x, stable_ok R (f x)) -> stable_ok R (bind m f).
Proof.
  intros Hm Hf s y s' E. unfold bind in E.
  destruct (m s) as [[e|x] s1] eqn:E1; [discriminate|].
  etrans; [exact (Hm _ _ _ E1) | exact (Hf _ _ _ _ E)].
Qed.

Lemma stable_ok_mmap {A B} (f : A -> M B) (l : list A) :
  (forall x, x ∈ l -> stable_ok R (f x)) -> stable_ok R (mmap f l).
Proof.
  intros Hf. induction l as [|x l IH]; simpl.
  - apply stable_ok_ret.
  - apply stable_ok_bind; [apply Hf; set_solver|]. intros y.
    apply stable_ok_bind; [apply IH; set_solver|]. intros ys. apply stable_ok_ret.
Qed.

Lemma stable_ok_sorted_by {A} (key : A -> M nat) (l : list A) :
  (forall x, x ∈ l -> stable_ok R (key x)) -> stable_ok R (sorted_by key l).
Proof.
  intros Hk. unfold sorted_by. apply stable_ok_bind.
  - by apply stable_ok_mmap.
  - intros ks. apply stable_ok_ret.
Qed.

End StableOk.

Lemma mmap_length {A B} (f : A -> M B) (l : list A) s ys s' :
  mmap f l s = (inr ys, s') -> length ys = length l.
Proof.
  revert s ys s'. induction l as [|x l IH]; intros s ys s' E; simpl in E.
  - by injection E as <- _.
  - unfold bind in E. destruct (f x s) as [[e|y] s1]; [discriminate|].
    destruct (mmap f l s1) as [[e|ys'] s2] eqn:E2; [discriminate|].
    injection E as <- _. simpl. f_equal. eauto.
Qed.

Lemma insert_by_key_perm {A} (p : A * nat) l : insert_by_key p l ≡ₚ p :: l.
Proof.
  induction l as [|q l IH]; simpl; [done|].
  destruct (snd q <=? snd p); [|done].
  rewrite IH. apply perm_swap.
Qed.

Lemma stable_sort_perm {A} (l : list (A * nat)) : stable_sort l ≡ₚ l.
Proof.
  unfold stable_sort.
  assert (H : forall acc, fold_left (fun acc p => insert_by_key p acc) l acc ≡ₚ l ++ acc).
  { induction l as [|p l IH]; intros acc; simpl; [done|].
    rewrite IH, insert_by_key_perm. by rewrite Permutation_middle. }
  by rewrite H, app_nil_r.
Qed.

Lemma sorted_by_perm {A} (key : A -> M nat) l s l' s' :
  sorted_by key l s = (inr l', s') -> l' ≡ₚ l.
Proof.
  unfold sorted_by, bind. destruct (mmap key l s) as [[e|ks] s1] eqn:E; [discriminate|].
  intros F. injection F as <- _. apply mmap_length in E.
  rewrite stable_sort_perm. rewrite fst_zip; [done|]. lia.
Qed.

Lemma max_go_in {A} (key : A -> M nat) l : forall best kb s v s',
  max_go key best kb l s = (inr v, s') -> v = best \/ v ∈ l.
Proof.
  induction l as [|y l IH]; intros best kb s v s' E; simpl in E.
  - injection E as <- _. by left.
  - unfold bind in E. destruct (key y s) as [[e|ky] s1]; [discriminate|].
    destruct (kb <? ky); apply IH in E as [->|?]; set_solver.
Qed.

Lemma max_by_in {A} (key : A -> M nat) l s v s' :
  max_by key l s = (inr v, s') -> v ∈ l.
Proof.
  destruct l as [|x l]; simpl; [discriminate|].
  unfold bind. destruct (key x s) as [[e|kx] s1]; [discriminate|].
  intros E. apply max_go_in in E as [->|?]; set_solver.
Qed.

(** ** Specifications of selection and value ordering *)

Section Heuristics.

Context (P : csp).

#[export] Instance asg_eq_preorder : PreOrder asg_eq.
Proof. split; [intros s; done | intros s1 s2 s3 H1 H2; unfold asg_eq in *; congruence]. Qed.

Lemma asg_eq_get : stable asg_eq get_asg.
Proof. unfold stable, asg_eq. prim. Qed.
Lemma asg_eq_dom v : stable asg_eq (domain_of P v).
Proof. unfold stable, asg_eq. prim. Qed.
Lemma asg_eq_nb v : stable asg_eq (neighbors_of v).
Proof. unfold stable, asg_eq. prim. Qed.

Lemma asg_eq_select : stable asg_eq (select_next_variable P).
Proof.
  unfold select_next_variable. stab; unfold domain_size, degree; stab;
    auto using asg_eq_get, asg_eq_dom, asg_eq_nb.
Qed.

Lemma select_in s v s' :
  select_next_variable P s = (inr v, s') -> v ∈ unassigned_of P (asg s).
Proof.
  unfold select_next_variable, bind, get_asg.
  destruct (sorted_by _ _ s) as [[e|l] s1] eqn:E; [discriminate|].
  intros F. apply max_by_in in F. apply sorted_by_perm in E. by rewrite <- E.
Qed.

#[export] Instance asg_free_preorder v : PreOrder (asg_free v).
Proof.
  split; [intros s _; done|].
  intros s1 s2 s3 H1 H2 Hv. unfold asg_free in *.
  rewrite H2; [by apply H1|]. by rewrite H1.
Qed.

Lemma asg_free_valid v x : stable (asg_free v) (is_valid P v x).
Proof.
  intros s Hv. unfold is_valid.
  pose proof (is_assignment_valid_state (constraints P) v x (asg s)) as H.
  destruct (is_assignment_valid _ _ _ _) as [b a']. simpl in *.
  rewrite H. by apply delete_id.
Qed.

Lemma asg_free_dom n v : stable (asg_free n) (domain_of P v).
Proof. unfold stable, asg_free. prim. Qed.

Lemma asg_free_neighbor_conflicts n : stable (asg_free n) (neighbor_conflicts P n).
Proof.
  unfold neighbor_conflicts. stab; auto using asg_free_dom, asg_free_valid.
Qed.

Lemma asg_eq_conflicts_step cc n : stable asg_eq (conflicts_step P cc n).
Proof.
  intros s. unfold conflicts_step, bind, get_asg. simpl.
  destruct (decide (asg s !! n = None)) as [Hn|Hn]; [|reflexivity].
  pose proof (asg_free_neighbor_conflicts n s Hn) as H.
  destruct (neighbor_conflicts P n s) as [[e|k] s1]; simpl in *; done.
Qed.

Lemma count_conflicts_unfold v x :
  count_conflicts P v x =
  (let* _ := set_asg v x in
   let* ns := neighbors_of v in
   let* conflict_count := mfold (conflicts_step P) 0 ns in
   let* _ := del_asg v in
   ret conflict_count).
Proof. reflexivity. Qed.

(** [count_conflicts] removes its tentative value again on a normal exit. *)
Lemma count_conflicts_restores v x : stable_ok (asg_free v) (count_conflicts P v x).
Proof.
  intros s c s' E Hv. rewrite count_conflicts_unfold in E.
  unfold bind in E at 1. simpl in E.
  set (s1 := {| asg := <[v:=x]> (asg s); nbrs := nbrs s; entries := entries s |}) in E.
  unfold bind in E at 1.
  pose proof (asg_eq_nb v s1) as H2.
  destruct (neighbors_of v s1) as [[e|ns] s2]; [discriminate|]. simpl in H2.
  unfold bind in E at 1.
  pose proof (stable_mfold asg_eq _ ns (fun cc n => asg_eq_conflicts_step cc n) 0 s2) as H3.
  destruct (mfold (conflicts_step P) 0 ns s2) as [[e|cc] s3]; [discriminate|]. simpl in H3.
  unfold bind, del_asg in E.
  unfold asg_eq in H2, H3. simpl in H2.
  rewrite H3, H2 in E. simpl in E. rewrite lookup_insert_eq in E.
  injection E as <- <-. simpl. try rewrite H3, H2. simpl.
  rewrite delete_insert_eq. by apply delete_id.
Qed.

Lemma order_restores v : stable_ok (asg_free v) (order_values_by_least_conflicts P v).
Proof.
  unfold order_values_by_least_conflicts.
  apply (stable_ok_bind (asg_free v)).
  - apply (stable_ok_of (asg_free v)). apply asg_free_dom.
  - intros d. apply (stable_ok_sorted_by (asg_free v)).
    intros x _. apply count_conflicts_restores.
Qed.

Lemma order_in v s vals s' :
  order_values_by_least_conflicts P v s = (inr vals, s') ->
  exists d, domains P !! v = Some d /\ vals ≡ₚ d.
Proof.
  unfold order_values_by_least_conflicts, bind, domain_of.
  destruct (domains P !! v) as [d|]; [|discriminate].
  intros E. exists d. split; [done|]. by apply sorted_by_perm in E.
Qed.

End Heuristics.

(** ** The search: partial correctness for an invariant of commits *)

Lemma bind_ok {A B} (m : M A) (f : A -> M B) s x s' :
  m s = (inr x, s') -> bind m f s = f x s'.
Proof. intros E. unfold bind. by rewrite E. Qed.

Lemma bind_err {A B} (m : M A) (f : A -> M B) s e s' :
  m s = (inl e, s') -> bind m f s = (inl e, s').
Proof. intros E. unfold bind. by rewrite E. Qed.

Lemma is_valid_run P v x s :
  is_valid P v x s =
  (inr (fst (is_assignment_valid (constraints P) v x (asg s))),
   mkSt (delete v (asg s)) (nbrs s) (entries s)).
Proof.
  unfold is_valid. rewrite <- (is_assignment_valid_state (constraints P) v x (asg s)).
  by destruct (is_assignment_valid _ _ _ _).
Qed.

Lemma unassigned_of_spec P a v :
  v ∈ unassigned_of P a <-> v ∈ variables P /\ a !! v = None.
Proof. unfold unassigned_of. rewrite list_elem_of_filter. tauto. Qed.

Section Search.

Context (P : csp) (Q : assignment -> Prop).

(** [Q] survives every commit [assignment[variable] = value] the search can
    make: an unassigned listed variable, a value of its domain, accepted by
    [_is_assignment_valid]. *)
Hypothesis HQ : forall a v x d,
  Q a -> v ∈ variables P -> a !! v = None -> domains P !! v = Some d -> x ∈ d ->
  fst (is_assignment_valid (constraints P) v x a) = true -> Q (<[v := x]> a).

Lemma rb_post_err a0 e s' : Forall Q (entries s') -> rb_post P Q a0 (inl e) s'.
Proof. intros H. split_and!; [done | discriminate | intros ? ?; discriminate]. Qed.

Lemma try_values_good rec v d :
  rb_good P Q rec -> v ∈ variables P -> domains P !! v = Some d ->
  forall vals s, (forall x, x ∈ vals -> x ∈ d) ->
  Q (asg s) -> Forall Q (entries s) -> asg s !! v = None ->
  rb_post P Q (asg s) (fst (try_values P rec v vals s)) (snd (try_values P rec v vals s)).
Proof.
  intros Hrec Hv Hd vals. induction vals as [|x vals IH];
    intros s Hvals HQs HEs Hfree; simpl.
  - split_and!; [done | done | intros ? ?; discriminate].
  - rewrite (bind_ok _ _ _ _ _ (is_valid_run P v x s)).
    rewrite (delete_id _ _ Hfree).
    destruct (fst (is_assignment_valid _ v x (asg s))) eqn:Eb.
    + set (s2 := {| asg := <[v:=x]> (asg s); nbrs := nbrs s; entries := entries s |}).
      assert (Eset : set_asg v x {| asg := asg s; nbrs := nbrs s; entries := entries s |}
                     = (inr tt, s2)) by reflexivity.
      rewrite (bind_ok _ _ _ _ _ Eset).
      assert (HQ2 : Q (asg s2)) by (eapply HQ; eauto; set_solver).
      specialize (Hrec s2 HQ2 HEs).
      destruct (rec s2) as [[e|res] s3] eqn:E3; simpl in Hrec.
      * rewrite (bind_err _ _ _ _ _ E3). apply rb_post_err, Hrec.
      * rewrite (bind_ok _ _ _ _ _ E3). destruct Hrec as (HE3 & HN3 & HS3).
        destruct res as [y|].
        -- destruct (HS3 y eq_refl) as (Hy & HQy & Hsize).
           destruct (truthy (Some y)) eqn:Et.
           ++ simpl. split_and!; [done | discriminate |].
              intros z Ez. injection Ez as <-. done.
           ++ simpl in Et. apply negb_false_iff, Nat.eqb_eq in Et.
              apply map_size_empty_iff in Et.
              assert (Edel : del_asg v s3 = (inl KeyError, s3)).
              { unfold del_asg. by rewrite Hy, Et, lookup_empty. }
              rewrite (bind_err _ _ _ _ _ Edel). by apply rb_post_err.
        -- specialize (HN3 eq_refl). simpl.
           set (s4 := {| asg := delete v (asg s3); nbrs := nbrs s3; entries := entries s3 |}).
           assert (Edel : del_asg v s3 = (inr tt, s4)).
           { unfold del_asg, s4. rewrite HN3. simpl. by rewrite lookup_insert_eq. }
           rewrite (bind_ok _ _ _ _ _ Edel).
           assert (Ha4 : asg s4 = asg s).
           { simpl. rewrite HN3. simpl. rewrite delete_insert_eq. by apply delete_id. }
           rewrite <- Ha4. apply IH; [set_solver | by rewrite Ha4 | done | by rewrite Ha4].
    + refine (IH {| asg := asg s; nbrs := nbrs s; entries := entries s |} _ _ _ _);
        simpl; [set_solver | done | done | done].
Qed.

Lemma rb_good_rb fuel : rb_good P Q (recursive_backtracking P fuel).
Proof.
  induction fuel as [|fuel IH]; intros s HQs HEs; simpl;
    rewrite (bind_ok _ _ _ _ _ (eq_refl : log_entry s = (inr tt,
      {| asg := asg s; nbrs := nbrs s; entries := asg s :: entries s |})));
    rewrite (bind_ok _ _ _ _ _ (eq_refl : get_asg
      {| asg := asg s; nbrs := nbrs s; entries := asg s :: entries s |} = (inr (asg s),
      {| asg := asg s; nbrs := nbrs s; entries := asg s :: entries s |}))); simpl;
    (destruct (size (asg s) =? length (variables P)) eqn:Ecomplete;
      [simpl; split_and!; [by constructor | discriminate |];
       intros x Ex; injection Ex as <-; split_and!; [done | done |];
       by apply Nat.eqb_eq | ]).
  - simpl. apply rb_post_err. by constructor.
  - set (s0 := {| asg := asg s; nbrs := nbrs s; entries := asg s :: entries s |}).
    assert (HE0 : Forall Q (entries s0)) by (simpl; by constructor).
    pose proof (entries_select P s0) as HE1. pose proof (asg_eq_select P s0) as HA1.
    pose proof (select_in P s0) as Hin.
    destruct (select_next_variable P s0) as [[e|v] s1] eqn:E1.
    + rewrite (bind_err _ _ _ _ _ E1). apply rb_post_err. unfold entries_rel in HE1.
      simpl in *. by rewrite HE1.
    + rewrite (bind_ok _ _ _ _ _ E1). specialize (Hin _ _ eq_refl).
      apply unassigned_of_spec in Hin as [Hv Hfree].
      unfold entries_rel, asg_eq in HE1, HA1. simpl in HE1, HA1.
      pose proof (entries_order P v s1) as HE2.
      pose proof (order_restores P v s1) as HA2.
      pose proof (order_in P v s1) as Hvals.
      destruct (order_values_by_least_conflicts P v s1) as [[e|vals] s2] eqn:E2.
      * rewrite (bind_err _ _ _ _ _ E2). apply rb_post_err.
        unfold entries_rel in HE2. simpl in *. by rewrite HE2, HE1.
      * rewrite (bind_ok _ _ _ _ _ E2).
        specialize (HA2 _ _ eq_refl). destruct (Hvals _ _ eq_refl) as (d & Hd & Hperm).
        unfold entries_rel, asg_free in HE2, HA2. simpl in HE2.
        rewrite HA1 in HA2. specialize (HA2 Hfree).
        rewrite <- HA2.
        apply (try_values_good _ v d); [exact IH | done | done | | | |].
        -- intros x Hx. by rewrite <- Hperm.
        -- by rewrite HA2.
        -- by rewrite HE2, HE1.
        -- by rewrite HA2.
Qed.

End Search.

(** ** Assignments, tuples and constraints *)

Lemma tuple_values_insert_notin a v x vs :
  v ∉ vs -> tuple_values (<[v := x]> a) vs = tuple_values a vs.
Proof.
  intros Hv. unfold tuple_values. f_equal. apply map_ext_in.
  intros w Hw. apply lookup_insert_ne. intros ->. apply Hv. by apply list_elem_of_In.
Qed.

Lemma tuple_values_None a vs :
  tuple_values a vs = None <-> exists w, w ∈ vs /\ a !! w = None.
Proof.
  unfold tuple_values. induction vs as [|w vs IH]; simpl.
  - split; [discriminate|]. intros (w & Hw & _). set_solver.
  - destruct (a !! w) as [x|] eqn:Ew.
    + destruct (all_present _) eqn:Er.
      * split; [discriminate|]. intros (w' & Hw' & Hn).
        apply elem_of_cons in Hw' as [->|Hw']; [congruence|].
        assert (Some l = None); [|discriminate]. apply IH. by exists w'.
      * split; [|done]. intros _. destruct IH as [IH _].
        destruct (IH eq_refl) as (w' & ? & ?). exists w'. set_solver.
    + split; [|done]. intros _. exists w. set_solver.
Qed.

Lemma tuple_values_empty vs : vs <> [] -> tuple_values ∅ vs = None.
Proof.
  intros Hne. apply tuple_values_None. destruct vs as [|w vs]; [done|].
  exists w. split; [set_solver | apply lookup_empty].
Qed.

Lemma keys_elem (a : assignment) k : k ∈ (map_to_list a).*1 <-> is_Some (a !! k).
Proof.
  rewrite list_elem_of_fmap. split.
  - intros ([k' x] & -> & H). simpl. apply elem_of_map_to_list in H. by exists x.
  - intros [x Hx]. exists (k, x). split; [done|]. by apply elem_of_map_to_list.
Qed.

(** An assignment whose keys are listed variables and whose size is the
    length of the list binds every listed variable. *)
Lemma keys_cover (vars : list var) (a : assignment) :
  (forall k, is_Some (a !! k) -> k ∈ vars) -> size a = length vars ->
  forall v, v ∈ vars -> is_Some (a !! v).
Proof.
  intros Hk Hs v Hv. apply keys_elem.
  assert (Hincl : incl vars ((map_to_list a).*1)).
  { apply NoDup_length_incl.
    - apply NoDup_ListNoDup, NoDup_fst_map_to_list.
    - rewrite length_fmap, length_map_to_list. lia.
    - intros k Hin. apply list_elem_of_In, Hk, keys_elem, list_elem_of_In, Hin. }
  apply list_elem_of_In, Hincl, list_elem_of_In, Hv.
Qed.

Section Invariants.

Context (P : csp).

Lemma consistent_empty : consistent P ∅.
Proof. intros c vals _ Hne Hv. by rewrite tuple_values_empty in Hv. Qed.

Lemma consistent_commit a v x d :
  consistent P a -> v ∈ variables P -> a !! v = None -> domains P !! v = Some d -> x ∈ d ->
  fst (is_assignment_valid (constraints P) v x a) = true -> consistent P (<[v := x]> a).
Proof.
  intros Ha _ _ _ _ Hok c vals Hc Hne Hv.
  destruct (decide (v ∈ c_vars c)) as [Hin|Hnin].
  - eapply is_assignment_valid_true; eauto.
  - rewrite tuple_values_insert_notin in Hv by done. eauto.
Qed.

Lemma keys_in_empty : keys_in P ∅.
Proof. intros k [x Hx]. by rewrite lookup_empty in Hx. Qed.

Lemma keys_in_commit a v x d :
  keys_in P a -> v ∈ variables P -> a !! v = None -> domains P !! v = Some d -> x ∈ d ->
  fst (is_assignment_valid (constraints P) v x a) = true -> keys_in P (<[v := x]> a).
Proof.
  intros Ha Hv _ _ _ _ k Hk. destruct (decide (k = v)) as [->|Hne]; [done|].
  rewrite lookup_insert_ne in Hk by done. by apply Ha.
Qed.

Lemma constraints_over_variables_spec c :
  constraints_over_variables P = true -> c ∈ constraints P ->
  c_vars c <> [] /\ forall w, w ∈ c_vars c -> w ∈ variables P.
Proof.
  unfold constraints_over_variables. rewrite forallb_forall. intros H Hc.
  apply list_elem_of_In, H in Hc. apply andb_prop in Hc as [H1 H2].
  apply negb_true_iff, bool_decide_eq_false in H1. split; [done|].
  intros w Hw. rewrite forallb_forall in H2.
  apply list_elem_of_In, H2 in Hw. by apply bool_decide_eq_true in Hw.
Qed.

End Invariants.

(** ** [_is_assignment_valid], the search invariant and solutions *)

(** C3 (amended): after [_is_assignment_valid(variable, value, assignment)]
    the assignment is the one before the call with [variable] removed; it is
    therefore unchanged exactly when [variable] was unbound before the call. *)
Theorem is_valid_leaves_assignment (P : csp) (v : var) (x : Z) (s : st) :
  asg (snd (is_valid P v x s)) = delete v (asg s) /\
  (asg s !! v = None -> asg (snd (is_valid P v x s)) = asg s).
Proof.
  rewrite is_valid_run. simpl. split; [done|]. intros Hv. by apply delete_id.
Qed.

(** C3 counterexample: [_is_assignment_valid("A", 2, {"A": 1})] leaves the
    assignment empty. *)
Lemma is_valid_bound_variable_counterexample :
  asg (snd (is_valid example "A" 2 (mkSt {["A" := 1%Z]} ∅ []))) <> {["A" := 1%Z]}.
Proof.
  intros H. apply (f_equal (lookup "A"%string)) in H. vm_compute in H. discriminate.
Qed.

(** C4: [_is_assignment_valid] returns [False] exactly when some constraint
    whose tuple contains [variable] has all its variables bound under the
    tentative assignment and its predicate fails on their values; in
    particular it returns [True] when every such constraint still has an
    unbound variable. *)
Theorem is_valid_result (P : csp) (v : var) (x : Z) (s : st) :
  (fst (is_valid P v x s) = inr false <->
   exists c vals, c ∈ constraints P /\ v ∈ c_vars c /\
     tuple_values (<[v := x]> (asg s)) (c_vars c) = Some vals /\ c_pred c vals = false) /\
  ((forall c, c ∈ constraints P -> v ∈ c_vars c ->
      exists w, w ∈ c_vars c /\ <[v := x]> (asg s) !! w = None) ->
   fst (is_valid P v x s) = inr true).
Proof.
  rewrite is_valid_run. simpl. split.
  - rewrite <- is_assignment_valid_false. split; [by injection 1 | by intros ->].
  - intros Hopen. destruct (fst (is_assignment_valid _ _ _ _)) eqn:E; [done|].
    apply is_assignment_valid_false in E as (c & vals & Hc & Hin & Hv & _).
    destruct (Hopen c Hc Hin) as (w & Hw & Hn).
    assert (tuple_values (<[v:=x]> (asg s)) (c_vars c) = None) as Hnone
      by (apply tuple_values_None; eauto).
    congruence.
Qed.

(** C5 (amended): the assignment at the entry of every call of
    [_recursive_backtracking] during [solve()] satisfies every constraint
    with a non-empty tuple whose variables it all binds. *)
Theorem solve_entries_consistent (P : csp) :
  Forall (consistent P) (entries (snd (solve P))).
Proof.
  unfold solve.
  destruct (rb_good_rb P (consistent P) (consistent_commit P)
              (S (length (variables P))) (init_state P)) as [H _].
  - apply consistent_empty.
  - constructor.
  - exact H.
Qed.

(** C5 counterexample: a constraint over the empty tuple is fully bound in
    the empty assignment of the first call, and its predicate is false. *)
Lemma entry_inconsistent_counterexample :
  ∅ ∈ entries (snd (solve empty_tuple_csp)) /\
  exists c, c ∈ constraints empty_tuple_csp /\
    tuple_values ∅ (c_vars c) = Some [] /\ c_pred c [] = false.
Proof.
  split.
  - vm_compute. right. left.
  - exists (mkConstraint [] never). split; [left | split; reflexivity].
Qed.

(** C1 (amended): when the constraints range over non-empty tuples of
    listed variables, an assignment returned by [solve()] has one binding
    per listed variable, binds each of them, and satisfies every constraint. *)
Theorem solve_solution_correct (P : csp)
  (Hwf : constraints_over_variables P = true) :
  match fst (solve P) with
  | inr (Some r) =>
      size r = length (variables P) /\
      (forall v, v ∈ variables P -> is_Some (r !! v)) /\
      (forall c, c ∈ constraints P ->
         exists vals, tuple_values r (c_vars c) = Some vals /\ c_pred c vals = true)
  | _ => True
  end.
Proof.
  set (Q := fun a => consistent P a /\ keys_in P a).
  assert (HQ : forall a v x d, Q a -> v ∈ variables P -> a !! v = None ->
            domains P !! v = Some d -> x ∈ d ->
            fst (is_assignment_valid (constraints P) v x a) = true -> Q (<[v := x]> a)).
  { intros a v x d [H1 H2] ? ? ? ? ?. split;
      [eapply consistent_commit | eapply keys_in_commit]; eauto. }
  unfold solve.
  destruct (rb_good_rb P Q HQ (S (length (variables P))) (init_state P))
    as (_ & _ & Hsome).
  - split; [apply consistent_empty | apply keys_in_empty].
  - constructor.
  - destruct (recursive_backtracking P _ _) as [[e|[r|]] s'] eqn:E; try done.
    destruct (Hsome r eq_refl) as (_ & [Hcons Hkeys] & Hsize).
    assert (Hall : forall v, v ∈ variables P -> is_Some (r !! v))
      by (apply keys_cover; done).
    split_and!; [done | done |].
    intros c Hc. destruct (constraints_over_variables_spec P c Hwf Hc) as [Hne Hvars].
    destruct (tuple_values r (c_vars c)) as [vals|] eqn:Ev.
    + exists vals. split; [done|]. eapply Hcons; eauto.
    + apply tuple_values_None in Ev as (w & Hw & Hn).
      destruct (Hall w (Hvars w Hw)) as [y Hy]. congruence.
Qed.

Lemma solve_solution_correct_witness :
  constraints_over_variables example = true /\
  match fst (solve example) with
  | inr (Some r) =>
      size r = length (variables example) /\
      (forall v, v ∈ variables example -> is_Some (r !! v)) /\
      (forall c, c ∈ constraints example ->
         exists vals, tuple_values r (c_vars c) = Some vals /\ c_pred c vals = true)
  | _ => True
  end.
Proof.
  split; [vm_compute; reflexivity|]. apply solve_solution_correct. vm_compute. reflexivity.
Defined.

(** C1 counterexample: [solve()] returns [{"A": 1}] for a constraint over
    [("A", "Z")] whose predicate is always false; [Z] is unbound. *)
Lemma solution_unsatisfied_counterexample :
  fst (solve unlisted_csp) = inr (Some {["A"%string := 1%Z]}) /\
  tuple_values {["A"%string := 1%Z]} ["A"; "Z"]%string = None.
Proof. split; vm_compute; reflexivity. Qed.

(** ** Sorting and [max] *)

Lemma mmap_rel {A B} (f : A -> M B) (Rel : A -> B -> Prop) (I : st -> Prop) (l : list A) :
  (forall x s y s', x ∈ l -> I s -> f x s = (inr y, s') -> Rel x y /\ I s') ->
  forall s ys s', I s -> mmap f l s = (inr ys, s') -> Forall2 Rel l ys /\ I s'.
Proof.
  induction l as [|x l IH]; intros Hf s ys s' Hs E; simpl in E.
  - injection E as <- <-. split; [constructor | done].
  - unfold bind in E. destruct (f x s) as [[e|y] s1] eqn:E1; [discriminate|].
    destruct (Hf x s y s1 ltac:(set_solver) Hs E1) as [Hr Hs1].
    destruct (mmap f l s1) as [[e|ys'] s2] eqn:E2; [discriminate|].
    injection E as <- <-.
    destruct (IH ltac:(intros; eapply Hf; eauto; set_solver) s1 ys' s2 Hs1 E2) as [H1 H2].
    split; [by constructor | done].
Qed.

Lemma Forall2_zip {A B} (Rel : A -> B -> Prop) l ks :
  Forall2 Rel l ks -> Forall (fun p => Rel p.1 p.2) (zip l ks).
Proof. induction 1; simpl; by constructor. Qed.

Lemma insert_by_key_sorted {A} (p : A * nat) l :
  StronglySorted key_sorted l -> StronglySorted key_sorted (insert_by_key p l).
Proof.
  induction l as [|q l IH]; simpl; intros Hs.
  - repeat constructor.
  - apply StronglySorted_inv in Hs as [Hl Hq].
    destruct (Nat.leb_spec (snd q) (snd p)).
    + constructor; [by apply IH|].
      apply Forall_forall. intros r Hr. rewrite insert_by_key_perm in Hr.
      apply elem_of_cons in Hr as [->|Hr]; [done|].
      by apply (proj1 (Forall_forall _ _) Hq).
    + constructor; [constructor; done|].
      constructor; [unfold key_sorted; lia|].
      apply Forall_forall. intros r Hr. unfold key_sorted.
      pose proof (proj1 (Forall_forall _ _) Hq r Hr) as H'. unfold key_sorted in H'. lia.
Qed.

Lemma stable_sort_sorted {A} (l : list (A * nat)) :
  StronglySorted key_sorted (stable_sort l).
Proof.
  unfold stable_sort.
  assert (H : forall acc, StronglySorted key_sorted acc ->
            StronglySorted key_sorted (fold_left (fun acc p => insert_by_key p acc) l acc)).
  { induction l as [|p l IH]; intros acc Hacc; simpl; [done|].
    apply IH. by apply insert_by_key_sorted. }
  apply H. constructor.
Qed.

Lemma sorted_map_fst {A} (R : A -> A -> Prop) (Good : A * nat -> Prop) (l : list (A * nat)) :
  StronglySorted key_sorted l -> Forall Good l ->
  (forall p q, Good p -> Good q -> key_sorted p q -> R p.1 q.1) ->
  StronglySorted R (map fst l).
Proof.
  intros Hs. induction Hs as [|p l Hs IH Hp]; intros Hg HR; simpl; constructor.
  - apply IH; [by inversion Hg|done].
  - apply Forall_forall. intros y Hy. apply list_elem_of_In, in_map_iff in Hy as (q & <- & Hq).
    apply list_elem_of_In in Hq. inversion Hg as [|? ? Hgp Hgl]; subst.
    apply HR; [done | by apply (proj1 (Forall_forall _ _) Hgl) | ].
    by apply (proj1 (Forall_forall _ _) Hp).
Qed.

Lemma sorted_by_spec {A} (key : A -> M nat) (Rel : A -> nat -> Prop) (I : st -> Prop)
    (l : list A) s l' s' :
  (forall x s n s', x ∈ l -> I s -> key x s = (inr n, s') -> Rel x n /\ I s') ->
  I s -> sorted_by key l s = (inr l', s') ->
  I s' /\ exists ps, l' = map fst ps /\ l' ≡ₚ l /\
    Forall (fun p => Rel p.1 p.2) ps /\ StronglySorted key_sorted ps.
Proof.
  intros Hk Hs E. pose proof (sorted_by_perm _ _ _ _ _ E) as Hperm.
  unfold sorted_by, bind in E.
  destruct (mmap key l s) as [[e|ks] s1] eqn:E1; [discriminate|].
  injection E as <- <-.
  destruct (mmap_rel key Rel I l Hk s ks s1 Hs E1) as [H2 Hs1].
  split; [done|]. exists (stable_sort (zip l ks)). split_and!; [done | done | |].
  - apply Forall_forall. intros p Hp. rewrite stable_sort_perm in Hp.
    by apply (proj1 (Forall_forall _ _) (Forall2_zip Rel l ks H2)).
  - apply stable_sort_sorted.
Qed.

Lemma max_go_spec {A} (key : A -> M nat) (k : A -> nat) (I : st -> Prop) (l : list A) :
  (forall x s n s', x ∈ l -> I s -> key x s = (inr n, s') -> n = k x /\ I s') ->
  forall best s v s', I s -> max_go key best (k best) l s = (inr v, s') ->
  (v = best /\ Forall (fun y => k y <= k best) l) \/
  (k best < k v /\ exists pre post, l = pre ++ v :: post /\
     Forall (fun y => k y < k v) pre /\ Forall (fun y => k y <= k v) post).
Proof.
  induction l as [|y l IH]; intros Hk best s v s' Hs E; simpl in E.
  - injection E as <- _. left. split; [done | constructor].
  - unfold bind in E. destruct (key y s) as [[e|ky] s1] eqn:E1; [discriminate|].
    destruct (Hk y s ky s1 ltac:(set_solver) Hs E1) as [-> Hs1].
    assert (Hk' : forall x s n s', x ∈ l -> I s -> key x s = (inr n, s') -> n = k x /\ I s')
      by (intros; eapply Hk; eauto; set_solver).
    destruct (Nat.ltb_spec (k best) (k y)) as [Hlt|Hge].
    + destruct (IH Hk' y s1 v s' Hs1 E) as [[-> Hall] | (Hlt' & pre & post & -> & Hpre & Hpost)].
      * right. split; [done|]. exists [], l. split_and!; [done | constructor | done].
      * right. split; [lia|]. exists (y :: pre), post. split_and!; [done | | done].
        constructor; [lia | done].
    + destruct (IH Hk' best s1 v s' Hs1 E) as [[-> Hall] | (Hlt' & pre & post & -> & Hpre & Hpost)].
      * left. split; [done|]. by constructor.
      * right. split; [done|]. exists (y :: pre), post. split_and!; [done | | done].
        constructor; [lia | done].
Qed.

(** [max(l, key=key)] returns the first element of maximal key. *)
Lemma max_by_spec {A} (key : A -> M nat) (k : A -> nat) (I : st -> Prop) (l : list A) s v s' :
  (forall x s n s', x ∈ l -> I s -> key x s = (inr n, s') -> n = k x /\ I s') ->
  I s -> max_by key l s = (inr v, s') ->
  exists pre post, l = pre ++ v :: post /\
    Forall (fun y => k y < k v) pre /\ Forall (fun y => k y <= k v) post.
Proof.
  intros Hk Hs E. destruct l as [|x l]; simpl in E; [discriminate|].
  unfold bind in E. destruct (key x s) as [[e|kx] s1] eqn:E1; [discriminate|].
  destruct (Hk x s kx s1 ltac:(set_solver) Hs E1) as [-> Hs1].
  assert (Hk' : forall y s n s', y ∈ l -> I s -> key y s = (inr n, s') -> n = k y /\ I s')
    by (intros; eapply Hk; eauto; set_solver).
  destruct (max_go_spec key k I l Hk' x s1 v s' Hs1 E)
    as [[-> Hall] | (Hlt & pre & post & -> & Hpre & Hpost)].
  - exists [], l. split_and!; [done | constructor | done].
  - exists (x :: pre), post. split_and!; [done | | done]. by constructor.
Qed.

Lemma sorted_app_cons {A} (R : A -> A -> Prop) pre v post u :
  StronglySorted R (pre ++ v :: post) -> u ∈ post -> R v u.
Proof.
  induction pre as [|y pre IH]; simpl; intros Hs Hu.
  - apply StronglySorted_inv in Hs as [_ Hv]. by apply (proj1 (Forall_forall _ _) Hv).
  - apply StronglySorted_inv in Hs as [Hs _]. by apply IH.
Qed.

(** ** Variable selection *)

Lemma degree_spec (n0 : gmap var (list var)) x t m t' :
  (forall u, nb_get (nbrs t) u = nb_get n0 u) -> degree x t = (inr m, t') ->
  m = length (nb_get n0 x) /\ forall u, nb_get (nbrs t') u = nb_get n0 u.
Proof.
  intros Ht E. unfold degree, bind, neighbors_of in E.
  destruct (nbrs t !! x) as [l|] eqn:Ex; simpl in E; injection E as <- <-.
  - rewrite <- Ht. unfold nb_get. by rewrite Ex.
  - split.
    + rewrite <- Ht. unfold nb_get. by rewrite Ex.
    + intros u. simpl. rewrite <- Ht. unfold nb_get.
      destruct (decide (u = x)) as [->|Hne].
      * by rewrite lookup_insert_eq, Ex.
      * by rewrite lookup_insert_ne.
Qed.

Lemma domain_size_spec P x t n t' :
  domain_size P x t = (inr n, t') ->
  (exists d, domains P !! x = Some d /\ n = length d) /\ t' = t.
Proof.
  unfold domain_size, bind, domain_of.
  destruct (domains P !! x) as [d|]; [|discriminate]. simpl.
  injection 1 as <- <-. eauto.
Qed.

(** C2 (amended): [_select_next_variable] returns an unassigned variable
    of maximal neighbour count (the length of its neighbour list, duplicates
    included) over all unassigned variables; among the unassigned variables
    with that same count, it has the smallest domain. *)
Theorem select_max_degree_then_min_domain (P : csp) (s : st) (v : var) (s' : st)
  (Hsel : select_next_variable P s = (inr v, s')) :
  v ∈ unassigned_of P (asg s) /\
  forall u, u ∈ unassigned_of P (asg s) ->
    is_Some (domains P !! u) /\
    length (nb_get (nbrs s) u) <= length (nb_get (nbrs s) v) /\
    (length (nb_get (nbrs s) u) = length (nb_get (nbrs s) v) ->
     domain_len P v <= domain_len P u).
Proof.
  unfold select_next_variable in Hsel.
  rewrite (bind_ok _ _ _ _ _ (eq_refl : get_asg s = (inr (asg s), s))) in Hsel.
  destruct (sorted_by (domain_size P) (unassigned_of P (asg s)) s) as [[e|L] s1] eqn:E1.
  { by rewrite (bind_err _ _ _ _ _ E1) in Hsel. }
  rewrite (bind_ok _ _ _ _ _ E1) in Hsel.
  set (Rel := fun x n => exists d, domains P !! x = Some d /\ n = length d).
  destruct (sorted_by_spec (domain_size P) Rel (fun t => t = s) (unassigned_of P (asg s)) s L s1)
    as (-> & ps & HL & Hperm & Hrel & Hsorted); [| done | done |].
  { intros x t n t' _ -> E. apply domain_size_spec in E as [? ->]. done. }
  assert (HsortL : StronglySorted (fun x y => domain_len P x <= domain_len P y) L).
  { rewrite HL. apply (sorted_map_fst _ (fun p => Rel p.1 p.2)); [done | done |].
    intros [x n] [y m] Hp Hq Hle. unfold key_sorted, Rel in *. simpl in *.
    destruct Hp as (dx & Hx & ->), Hq as (dy & Hy & ->).
    unfold domain_len. by rewrite Hx, Hy. }
  assert (HdomL : forall u, u ∈ L -> is_Some (domains P !! u)).
  { intros u Hu. rewrite HL in Hu. apply list_elem_of_In, in_map_iff in Hu as ([x n] & <- & Hp).
    apply list_elem_of_In in Hp. destruct (proj1 (Forall_forall _ _) Hrel _ Hp) as (d & Hd & _).
    simpl. by exists d. }
  destruct (max_by_spec degree (fun u => length (nb_get (nbrs s) u))
              (fun t => forall u, nb_get (nbrs t) u = nb_get (nbrs s) u) L s v s')
    as (pre & post & HLv & Hpre & Hpost); [| done | done |].
  { intros x t n t' _ Ht E. by apply (degree_spec (nbrs s)) in E. }
  assert (Hv : v ∈ L) by (rewrite HLv; set_solver).
  split; [by rewrite <- Hperm|].
  intros u Hu. rewrite <- Hperm in Hu. split; [by apply HdomL|].
  rewrite HLv in Hu. apply elem_of_app in Hu as [Hu|Hu].
  - pose proof (proj1 (Forall_forall _ _) Hpre u Hu) as Hlt. cbn beta in Hlt.
    split; [lia | intros; lia].
  - apply elem_of_cons in Hu as [->|Hu]; [split; lia|].
    pose proof (proj1 (Forall_forall _ _) Hpost u Hu) as Hle. cbn beta in Hle.
    split; [lia|].
    intros _. rewrite HLv in HsortL.
    exact (sorted_app_cons (fun x y => domain_len P x <= domain_len P y) pre v post u HsortL Hu).
Qed.

Lemma select_max_degree_then_min_domain_witness :
  select_next_variable mrv_csp (init_state mrv_csp) =
    (inr "B"%string, snd (select_next_variable mrv_csp (init_state mrv_csp))) /\
  ("B"%string ∈ unassigned_of mrv_csp ∅ /\
   forall u, u ∈ unassigned_of mrv_csp ∅ ->
     is_Some (domains mrv_csp !! u) /\
     length (nb_get (nbrs (init_state mrv_csp)) u) <=
       length (nb_get (nbrs (init_state mrv_csp)) "B"%string) /\
     (length (nb_get (nbrs (init_state mrv_csp)) u) =
        length (nb_get (nbrs (init_state mrv_csp)) "B"%string) ->
      domain_len mrv_csp "B"%string <= domain_len mrv_csp u)).
Proof.
  split; [vm_compute; reflexivity|].
  apply (select_max_degree_then_min_domain mrv_csp (init_state mrv_csp) "B"%string
           (snd (select_next_variable mrv_csp (init_state mrv_csp)))).
  vm_compute. reflexivity.
Defined.

(** C2 counterexample: with no assignment, [_select_next_variable] picks
    [B] (two values, one neighbour) over [A] (one value, no neighbour). *)
Lemma select_not_min_domain_counterexample :
  fst (select_next_variable mrv_csp (init_state mrv_csp)) = inr "B"%string /\
  "A"%string ∈ unassigned_of mrv_csp ∅ /\
  domain_len mrv_csp "A"%string < domain_len mrv_csp "B"%string.
Proof.
  split; [vm_compute; reflexivity|]. split; [vm_compute; left | vm_compute; lia].
Qed.

(** ** The constraint graph during [solve()] *)

Lemma nbrs_ext_nb_get n n' : nbrs_ext n n' -> forall k, nb_get n' k = nb_get n k.
Proof.
  intros H k. unfold nb_get. destruct (H k) as [->|[-> ->]]; done.
Qed.

(** C8 (amended): during [solve()] the only change to [self.neighbors] is
    the insertion, by a [defaultdict] lookup, of an empty list under a
    variable that had no entry; no existing entry changes, so every lookup
    [self.neighbors[v]] gives the same list as right after construction. *)
Theorem solve_neighbors_only_defaults (P : csp) :
  nbrs_ext (nbrs (init_state P)) (nbrs (snd (solve P))) /\
  forall v, nb_get (nbrs (snd (solve P))) v = nb_get (nbrs (init_state P)) v.
Proof.
  assert (H : nbrs_ext (nbrs (init_state P)) (nbrs (snd (solve P))))
    by apply (nbrs_rb P).
  split; [done|]. by apply nbrs_ext_nb_get.
Qed.

(** C8 counterexample: [solve()] adds the key [A] to [self.neighbors]. *)
Lemma neighbors_mutated_counterexample :
  nbrs (init_state one_var_csp) !! "A"%string = None /\
  nbrs (snd (solve one_var_csp)) !! "A"%string = Some [].
Proof. split; vm_compute; reflexivity. Qed.

(** ** An empty variable list *)

(** C10: with no variables, [solve()] returns the empty assignment, whatever
    the domains and the constraints. *)
Theorem solve_no_variables (doms : gmap var (list Z)) (cs : list constraint) :
  fst (solve (mkCSP [] doms cs)) = inr (Some ∅).
Proof. reflexivity. Qed.

(** ** Normal termination *)

Lemma mmap_total {A B} (f : A -> M B) (I : st -> Prop) (l : list A) :
  (forall x s, x ∈ l -> I s -> exists y s', f x s = (inr y, s') /\ I s') ->
  forall s, I s -> exists ys s', mmap f l s = (inr ys, s') /\ I s'.
Proof.
  induction l as [|x l IH]; intros Hf s Hs; simpl.
  - by exists [], s.
  - destruct (Hf x s ltac:(set_solver) Hs) as (y & s1 & E1 & Hs1).
    rewrite (bind_ok _ _ _ _ _ E1).
    destruct (IH ltac:(intros; apply Hf; [set_solver | done]) s1 Hs1) as (ys & s2 & E2 & Hs2).
    rewrite (bind_ok _ _ _ _ _ E2). by exists (y :: ys), s2.
Qed.

Lemma mfold_total {A B} (f : B -> A -> M B) (I : st -> Prop) (l : list A) :
  (forall acc x s, x ∈ l -> I s -> exists y s', f acc x s = (inr y, s') /\ I s') ->
  forall acc s, I s -> exists r s', mfold f acc l s = (inr r, s') /\ I s'.
Proof.
  induction l as [|x l IH]; intros Hf acc s Hs; simpl.
  - by exists acc, s.
  - destruct (Hf acc x s ltac:(set_solver) Hs) as (y & s1 & E1 & Hs1).
    rewrite (bind_ok _ _ _ _ _ E1).
    apply IH; [intros; apply Hf; [set_solver | done] | done].
Qed.

Lemma sorted_by_total {A} (key : A -> M nat) (I : st -> Prop) (l : list A) :
  (forall x s, x ∈ l -> I s -> exists n s', key x s = (inr n, s') /\ I s') ->
  forall s, I s -> exists l' s', sorted_by key l s = (inr l', s') /\ I s'.
Proof.
  intros Hk s Hs. unfold sorted_by.
  destruct (mmap_total key I l Hk s Hs) as (ks & s1 & E1 & Hs1).
  rewrite (bind_ok _ _ _ _ _ E1). eexists _, s1. split; [reflexivity | done].
Qed.

Lemma max_go_total {A} (key : A -> M nat) (l : list A) :
  (forall x s, exists n s', key x s = (inr n, s')) ->
  forall best kb s, exists v s', max_go key best kb l s = (inr v, s').
Proof.
  intros Hk. induction l as [|y l IH]; intros best kb s; simpl.
  - by exists best, s.
  - destruct (Hk y s) as (ky & s1 & E1). rewrite (bind_ok _ _ _ _ _ E1).
    destruct (kb <? ky); apply IH.
Qed.

Lemma degree_total x s : exists n s', degree x s = (inr n, s').
Proof.
  unfold degree, bind, neighbors_of.
  destruct (nbrs s !! x); simpl; eauto.
Qed.

Lemma select_total (P : csp) (s : st) :
  (forall v, v ∈ variables P -> is_Some (domains P !! v)) ->
  unassigned_of P (asg s) <> [] ->
  exists v s', select_next_variable P s = (inr v, s').
Proof.
  intros Hvars Hne. unfold select_next_variable.
  rewrite (bind_ok _ _ _ _ _ (eq_refl : get_asg s = (inr (asg s), s))).
  destruct (sorted_by_total (domain_size P) (fun _ => True) (unassigned_of P (asg s)))
    with (s := s) as (L & s1 & E1 & _); [| done |].
  { intros x t Hx _. apply unassigned_of_spec in Hx as [Hx _].
    destruct (Hvars x Hx) as [d Hd]. unfold domain_size, bind, domain_of.
    rewrite Hd. simpl. eauto. }
  rewrite (bind_ok _ _ _ _ _ E1). apply sorted_by_perm in E1.
  destruct L as [|x L].
  - apply Permutation_nil in E1. by rewrite E1 in Hne.
  - simpl. destruct (degree_total x s1) as (kx & s2 & E2).
    rewrite (bind_ok _ _ _ _ _ E2). apply max_go_total, degree_total.
Qed.

Lemma domains_complete_spec P :
  domains_complete P = true ->
  (forall v, v ∈ variables P -> is_Some (domains P !! v)) /\
  (forall c w, c ∈ constraints P -> w ∈ c_vars c -> is_Some (domains P !! w)).
Proof.
  unfold domains_complete. intros H. apply andb_prop in H as [H1 H2].
  rewrite forallb_forall in H1, H2. split.
  - intros v Hv. apply list_elem_of_In, H1 in Hv. by apply bool_decide_eq_true in Hv.
  - intros c w Hc Hw. apply list_elem_of_In, H2 in Hc. rewrite forallb_forall in Hc.
    apply list_elem_of_In, Hc in Hw. by apply bool_decide_eq_true in Hw.
Qed.

Lemma nbrs_ok_ext P n n' : nbrs_ok P n -> nbrs_ext n n' -> nbrs_ok P n'.
Proof.
  intros Hn Hext k l w Hk Hw. destruct (Hext k) as [E|[_ E]]; rewrite E in Hk.
  - eauto.
  - injection Hk as <-. set_solver.
Qed.

Lemma graph_nbrs_ok P :
  (forall c w, c ∈ constraints P -> w ∈ c_vars c -> is_Some (domains P !! w)) ->
  nbrs_ok P (create_constraint_graph (constraints P)).
Proof.
  intros Hc. unfold create_constraint_graph.
  assert (Hout : forall cs0 n, (forall c, c ∈ cs0 -> c ∈ constraints P) -> nbrs_ok P n ->
            nbrs_ok P (fold_left (fun n c => fold_left (fun n v =>
              <[v := nb_get n v ++ filter (fun w => w <> v) (c_vars c)]> n)
              (c_vars c) n) cs0 n)).
  { induction cs0 as [|c cs0 IH]; intros n Hsub Hn; simpl; [done|].
    apply IH; [set_solver|].
    assert (Hin : forall vs n, nbrs_ok P n -> nbrs_ok P (fold_left (fun n v =>
              <[v := nb_get n v ++ filter (fun w => w <> v) (c_vars c)]> n) vs n)).
    { induction vs as [|v vs IHv]; intros n' Hn'; simpl; [done|].
      apply IHv. intros k l w Hk Hw.
      destruct (decide (k = v)) as [->|Hne].
      - rewrite lookup_insert_eq in Hk. injection Hk as <-.
        apply elem_of_app in Hw as [Hw|Hw].
        + unfold nb_get in Hw. destruct (n' !! v) eqn:E; simpl in Hw; [eauto | set_solver].
        + apply list_elem_of_filter in Hw as [_ Hw]. apply (Hc c); [set_solver | done].
      - rewrite lookup_insert_ne in Hk by done. eauto. }
    by apply Hin. }
  apply Hout; [done|]. intros k l w Hk. by rewrite lookup_empty in Hk.
Qed.

Lemma nbrs_select P : stable nbrs_rel (select_next_variable P).
Proof.
  apply stable_select; auto using nbrs_get, nbrs_set, nbrs_del, nbrs_dom,
    nbrs_valid, nbrs_nb; typeclasses eauto.
Qed.

Lemma nbrs_count_conflicts P v x : stable nbrs_rel (count_conflicts P v x).
Proof.
  apply stable_count_conflicts; auto using nbrs_get, nbrs_set, nbrs_del, nbrs_dom,
    nbrs_valid, nbrs_nb; typeclasses eauto.
Qed.

Lemma nbrs_order P v : stable nbrs_rel (order_values_by_least_conflicts P v).
Proof.
  apply stable_order; auto using nbrs_get, nbrs_set, nbrs_del, nbrs_dom,
    nbrs_valid, nbrs_nb; typeclasses eauto.
Qed.

Lemma nbrs_conflicts_step P cc n : stable nbrs_rel (conflicts_step P cc n).
Proof.
  unfold conflicts_step, neighbor_conflicts. stab;
    auto using nbrs_get, nbrs_dom, nbrs_valid.
Qed.

Lemma asg_ok_commit P a v x d :
  asg_ok P a -> v ∈ variables P -> a !! v = None -> domains P !! v = Some d -> x ∈ d ->
  fst (is_assignment_valid (constraints P) v x a) = true -> asg_ok P (<[v := x]> a).
Proof.
  intros Ha Hv _ Hd Hx _ k y Hk. destruct (decide (k = v)) as [->|Hne].
  - rewrite lookup_insert_eq in Hk. injection Hk as <-. eauto.
  - rewrite lookup_insert_ne in Hk by done. eauto.
Qed.

Lemma unassigned_commit P a v x :
  v ∈ unassigned_of P a ->
  length (unassigned_of P (<[v := x]> a)) < length (unassigned_of P a).
Proof.
  intros Hv. unfold unassigned_of.
  rewrite <- (list_filter_filter_l (fun w => <[v:=x]> a !! w = None)
                (fun w => a !! w = None)).
  - apply (length_filter_lt _ _ v); [done|]. by rewrite lookup_insert_eq.
  - intros w Hw. destruct (decide (w = v)) as [->|Hne].
    + by rewrite lookup_insert_eq in Hw.
    + by rewrite lookup_insert_ne in Hw.
Qed.

Lemma neighbor_conflicts_total P n s :
  is_Some (domains P !! n) -> exists k s', neighbor_conflicts P n s = (inr k, s').
Proof.
  intros [d Hd]. unfold neighbor_conflicts.
  assert (E : domain_of P n s = (inr d, s)) by (unfold domain_of; by rewrite Hd).
  rewrite (bind_ok _ _ _ _ _ E).
  destruct (mfold_total (fun cc val => let* ok := is_valid P n val in
                          ret (if ok then cc else S cc)) (fun _ => True) d)
    with (acc := 0) (s := s) as (r & s' & E' & _); [| done | eauto].
  intros acc x t _ _. rewrite (bind_ok _ _ _ _ _ (is_valid_run P n x t)).
  do 2 eexists. split; [reflexivity | done].
Qed.

Lemma conflicts_step_total P cc n s :
  is_Some (domains P !! n) -> exists k s', conflicts_step P cc n s = (inr k, s').
Proof.
  intros Hn. unfold conflicts_step.
  rewrite (bind_ok _ _ _ _ _ (eq_refl : get_asg s = (inr (asg s), s))).
  destruct (decide _).
  - destruct (neighbor_conflicts_total P n s Hn) as (k & s' & E).
    rewrite (bind_ok _ _ _ _ _ E). do 2 eexists. reflexivity.
  - do 2 eexists. reflexivity.
Qed.

Lemma count_conflicts_total P v x s :
  nbrs_ok P (nbrs s) -> exists k s', count_conflicts P v x s = (inr k, s').
Proof.
  intros Hn. rewrite count_conflicts_unfold.
  set (s1 := mkSt (<[v:=x]> (asg s)) (nbrs s) (entries s)).
  rewrite (bind_ok _ _ _ _ _ (eq_refl : set_asg v x s = (inr tt, s1))).
  pose proof (nbrs_nb v s1) as N2. pose proof (asg_eq_nb v s1) as A2.
  assert (Hns : forall ns s2, neighbors_of v s1 = (inr ns, s2) ->
            forall w, w ∈ ns -> is_Some (domains P !! w)).
  { unfold neighbors_of. simpl. intros ns s2.
    destruct (nbrs s !! v) eqn:E; intros [= <- _] w Hw; [eapply Hn; eauto | set_solver]. }
  destruct (neighbors_of v s1) as [[e|ns] s2] eqn:E2.
  { unfold neighbors_of in E2. simpl in E2. by destruct (nbrs s !! v). }
  rewrite (bind_ok _ _ _ _ _ E2). specialize (Hns _ _ eq_refl).
  unfold nbrs_rel, asg_eq in N2, A2. simpl in N2, A2.
  destruct (mfold_total (conflicts_step P)
              (fun u => asg u = asg s1 /\ nbrs_ok P (nbrs u)) ns)
    with (acc := 0) (s := s2) as (cc & s3 & E3 & [Ha3 _]).
  - intros acc n u Hin [Ha Hnb].
    destruct (conflicts_step_total P acc n u (Hns n Hin)) as (k & u' & E).
    exists k, u'. split; [done|].
    pose proof (asg_eq_conflicts_step P acc n u) as A. pose proof (nbrs_conflicts_step P acc n u) as N.
    rewrite E in A, N. unfold asg_eq, nbrs_rel in A, N. simpl in A, N.
    split; [congruence | eapply nbrs_ok_ext; eauto].
  - split; [done|]. eapply nbrs_ok_ext; eauto.
  - rewrite (bind_ok _ _ _ _ _ E3). unfold bind, del_asg. rewrite Ha3. simpl.
    rewrite lookup_insert_eq. do 2 eexists. reflexivity.
Qed.

Lemma order_total P v s :
  is_Some (domains P !! v) -> nbrs_ok P (nbrs s) ->
  exists vals s', order_values_by_least_conflicts P v s = (inr vals, s').
Proof.
  intros [d Hd] Hn. unfold order_values_by_least_conflicts.
  assert (E : domain_of P v s = (inr d, s)) by (unfold domain_of; by rewrite Hd).
  rewrite (bind_ok _ _ _ _ _ E).
  destruct (sorted_by_total (count_conflicts P v) (fun t => nbrs_ok P (nbrs t)) d)
    with (s := s) as (l & s' & E' & _); [| done | eauto].
  intros x t _ Ht. destruct (count_conflicts_total P v x t Ht) as (k & t' & Ek).
  exists k, t'. split; [done|].
  pose proof (nbrs_count_conflicts P v x t) as N. rewrite Ek in N.
  eapply nbrs_ok_ext; eauto.
Qed.

Section Total.

Context (P : csp).
Hypothesis Hvars : forall v, v ∈ variables P -> is_Some (domains P !! v).
(** An incomplete assignment of the search leaves a listed variable
    unassigned. *)
Hypothesis Hsel : forall a, asg_ok P a -> size a <> length (variables P) ->
  unassigned_of P a <> [].

Lemma try_values_total f v d
  (IH : forall s, asg_ok P (asg s) -> nbrs_ok P (nbrs s) -> Forall (asg_ok P) (entries s) ->
        length (unassigned_of P (asg s)) < f ->
        exists r s', recursive_backtracking P f s = (inr r, s')) a :
  v ∈ unassigned_of P a -> length (unassigned_of P a) <= f -> asg_ok P a ->
  domains P !! v = Some d ->
  forall vals t, asg t = a -> nbrs_ok P (nbrs t) -> Forall (asg_ok P) (entries t) ->
  (forall x, x ∈ vals -> x ∈ d) ->
  exists r t', try_values P (recursive_backtracking P f) v vals t = (inr r, t').
Proof.
  intros Hv Hlen Ha Hd. pose proof Hv as Hv'. apply unassigned_of_spec in Hv' as [Hvl Hfree].
  induction vals as [|x vals IHv]; intros t Hta Hn He Hvals; simpl.
  - do 2 eexists. reflexivity.
  - rewrite (bind_ok _ _ _ _ _ (is_valid_run P v x t)). rewrite Hta, (delete_id _ _ Hfree).
    destruct (fst (is_assignment_valid _ v x a)) eqn:Eb.
    + set (t2 := mkSt (<[v:=x]> a) (nbrs t) (entries t)).
      rewrite (bind_ok _ _ _ _ _ (eq_refl : set_asg v x (mkSt a (nbrs t) (entries t))
                                             = (inr tt, t2))).
      assert (Hok2 : asg_ok P (<[v:=x]> a))
        by (eapply asg_ok_commit; eauto; set_solver).
      pose proof (rb_good_rb P (asg_ok P) (asg_ok_commit P) f t2 Hok2 He) as Hpost.
      pose proof (nbrs_rb P f t2) as Hn3.
      destruct (IH t2 Hok2 Hn He) as (r & t3 & E3).
      { simpl. pose proof (unassigned_commit P a v x Hv). lia. }
      rewrite (bind_ok _ _ _ _ _ E3). rewrite E3 in Hpost, Hn3. simpl in Hpost, Hn3.
      destruct Hpost as (He3 & HN3 & HS3).
      destruct r as [y|].
      * destruct (HS3 y eq_refl) as (Hy & _ & Hsize).
        assert (Et : truthy (Some y) = true).
        { simpl. apply negb_true_iff, Nat.eqb_neq. rewrite Hsize.
          destruct (variables P); [set_solver | simpl; lia]. }
        rewrite Et. do 2 eexists. reflexivity.
      * specialize (HN3 eq_refl). simpl.
        set (t4 := mkSt (delete v (asg t3)) (nbrs t3) (entries t3)).
        assert (Edel : del_asg v t3 = (inr tt, t4)).
        { unfold del_asg, t4. rewrite HN3. simpl. by rewrite lookup_insert_eq. }
        rewrite (bind_ok _ _ _ _ _ Edel). apply IHv.
        -- simpl. rewrite HN3. simpl. rewrite delete_insert_eq. by apply delete_id.
        -- simpl. eapply nbrs_ok_ext; [exact Hn | exact Hn3].
        -- exact He3.
        -- set_solver.
    + refine (IHv (mkSt a (nbrs t) (entries t)) _ _ _ _); simpl;
        [done | done | done | set_solver].
Qed.

Lemma rb_total fuel :
  forall s, asg_ok P (asg s) -> nbrs_ok P (nbrs s) -> Forall (asg_ok P) (entries s) ->
  length (unassigned_of P (asg s)) < fuel ->
  exists r s', recursive_backtracking P fuel s = (inr r, s').
Proof.
  induction fuel as [|f IH]; intros s Ha Hn He Hlen; [lia|]. simpl.
  set (s0 := {| asg := asg s; nbrs := nbrs s; entries := asg s :: entries s |}).
  rewrite (bind_ok _ _ _ _ _ (eq_refl : log_entry s = (inr tt, s0))).
  rewrite (bind_ok _ _ _ _ _ (eq_refl : get_asg s0 = (inr (asg s), s0))).
  destruct (size (asg s) =? length (variables P)) eqn:Ec.
  { do 2 eexists. reflexivity. }
  apply Nat.eqb_neq in Ec.
  destruct (select_total P s0 Hvars (Hsel _ Ha Ec)) as (v & s1 & E1).
  rewrite (bind_ok _ _ _ _ _ E1).
  pose proof (select_in P s0 v s1 E1) as Hv. simpl in Hv.
  pose proof (asg_eq_select P s0) as A1. pose proof (nbrs_select P s0) as N1.
  pose proof (entries_select P s0) as En1. rewrite E1 in A1, N1, En1.
  unfold asg_eq, nbrs_rel, entries_rel in A1, N1, En1. simpl in A1, N1, En1.
  pose proof Hv as Hv'. apply unassigned_of_spec in Hv' as [Hvl Hfree].
  assert (Hn1 : nbrs_ok P (nbrs s1)) by (eapply nbrs_ok_ext; eauto).
  destruct (order_total P v s1 (Hvars v Hvl) Hn1) as (vals & s2 & E2).
  rewrite (bind_ok _ _ _ _ _ E2).
  pose proof (order_restores P v s1 vals s2 E2) as A2.
  pose proof (nbrs_order P v s1) as N2. pose proof (entries_order P v s1) as En2.
  rewrite E2 in N2, En2. unfold asg_free, nbrs_rel, entries_rel in A2, N2, En2.
  simpl in N2, En2.
  destruct (order_in P v s1 vals s2 E2) as (d & Hd & Hperm).
  apply (try_values_total f v d IH (asg s)); [done | lia | done | done | | | |].
  - rewrite A2; [done | by rewrite A1].
  - eapply nbrs_ok_ext; eauto.
  - rewrite En2, En1. by constructor.
  - intros x Hx. by rewrite <- Hperm.
Qed.

End Total.

Lemma asg_ok_empty P : asg_ok P ∅.
Proof. intros k x Hk. by rewrite lookup_empty in Hk. Qed.

Lemma asg_ok_keys_in P a : asg_ok P a -> keys_in P a.
Proof. intros Ha k [x Hx]. by destruct (Ha k x Hx). Qed.

Lemma unassigned_of_length P a : length (unassigned_of P a) <= length (variables P).
Proof. apply length_filter. Qed.

(** [solve()] runs to a result, with no exception, when the domains cover
    the listed and the constrained variables and every incomplete
    assignment of the search leaves a listed variable unassigned. *)
Lemma solve_total P :
  domains_complete P = true ->
  (forall a, asg_ok P a -> size a <> length (variables P) -> unassigned_of P a <> []) ->
  exists r, fst (solve P) = inr r /\
    forall x, r = Some x -> asg_ok P x /\ size x = length (variables P).
Proof.
  intros Hc Hsel. destruct (domains_complete_spec P Hc) as [Hvars Hcvars].
  unfold solve.
  destruct (rb_total P Hvars Hsel (S (length (variables P))) (init_state P))
    as (r & s' & E).
  - apply asg_ok_empty.
  - by apply graph_nbrs_ok.
  - constructor.
  - simpl. pose proof (unassigned_of_length P ∅). lia.
  - destruct (rb_good_rb P (asg_ok P) (asg_ok_commit P) (S (length (variables P)))
                (init_state P)) as (_ & _ & Hsome); [apply asg_ok_empty | constructor |].
    rewrite E in Hsome |- *. exists r. split; [done|].
    intros x ->. by destruct (Hsome x eq_refl) as (_ & ? & ?).
Qed.

(** C6 (amended): when every listed variable and every variable of a
    constraint tuple has an entry in [domains], and some listed variable has
    an empty domain, [solve()] returns [None] and raises no exception. *)
Theorem solve_empty_domain_none (P : csp) (e : var)
  (Hc : domains_complete P = true) (He : e ∈ variables P)
  (Hd : domains P !! e = Some []) :
  fst (solve P) = inr None.
Proof.
  assert (Hunb : forall a, asg_ok P a -> a !! e = None).
  { intros a Ha. destruct (a !! e) as [x|] eqn:E; [|done].
    destruct (Ha e x E) as (_ & d & Hd' & Hx). rewrite Hd in Hd'.
    injection Hd' as <-. set_solver. }
  destruct (solve_total P Hc) as (r & Er & Hr).
  - intros a Ha _ Hnil. assert (Hin : e ∈ unassigned_of P a)
      by (apply unassigned_of_spec; split; [done | by apply Hunb]).
    rewrite Hnil in Hin. set_solver.
  - rewrite Er. destruct r as [x|]; [|done].
    destruct (Hr x eq_refl) as [Hx Hsize].
    destruct (keys_cover (variables P) x (asg_ok_keys_in P x Hx) Hsize e He) as [y Hy].
    by rewrite (Hunb x Hx) in Hy.
Qed.

Lemma solve_empty_domain_none_witness :
  domains_complete empty_domain_csp = true /\
  fst (solve empty_domain_csp) = inr None.
Proof.
  split; [vm_compute; reflexivity|].
  apply (solve_empty_domain_none empty_domain_csp "B"%string).
  - vm_compute. reflexivity.
  - vm_compute. right. left.
  - vm_compute. reflexivity.
Defined.

(** C6 counterexample: [A] has an empty domain, and [solve()] raises
    [KeyError] on [self.domains["B"]] in [_select_next_variable]. *)
Lemma empty_domain_key_error_counterexample :
  domains missing_domain_csp !! "A"%string = Some [] /\
  fst (solve missing_domain_csp) = inl KeyError.
Proof. split; vm_compute; reflexivity. Qed.

(** ** No constraints *)

Lemma domains_nonempty_spec P :
  domains_nonempty P = true ->
  forall v, v ∈ variables P -> exists x d, domains P !! v = Some (x :: d).
Proof.
  unfold domains_nonempty. rewrite forallb_forall. intros H v Hv.
  apply list_elem_of_In, H in Hv.
  destruct (domains P !! v) as [[|x d]|]; [done | by exists x, d | done].
Qed.

Lemma nbrs_empty_ext n n' : nbrs_empty n -> nbrs_ext n n' -> nbrs_empty n'.
Proof.
  intros Hn Hext k l Hk. destruct (Hext k) as [E|[_ E]]; rewrite E in Hk; [eauto|].
  by injection Hk as <-.
Qed.

Lemma insert_by_key_last {A} (p : A * nat) l :
  Forall (fun q => q.2 <= p.2) l -> insert_by_key p l = l ++ [p].
Proof.
  induction l as [|q l IH]; intros Hl; simpl; [done|].
  apply Forall_cons in Hl as [Hq Hl].
  destruct (Nat.leb_spec (snd q) (snd p)); [by rewrite IH | lia].
Qed.

(** With all keys equal, the stable sort is the identity. *)
Lemma stable_sort_const {A} (l : list (A * nat)) n :
  Forall (fun p => p.2 = n) l -> stable_sort l = l.
Proof.
  unfold stable_sort. intros Hl.
  assert (H : forall acc, Forall (fun p => p.2 = n) acc ->
            fold_left (fun acc p => insert_by_key p acc) l acc = acc ++ l).
  { induction l as [|p l IH]; intros acc Hacc; simpl; [by rewrite app_nil_r|].
    apply Forall_cons in Hl as [Hp Hl].
    rewrite insert_by_key_last.
    - rewrite IH; [by rewrite <- app_assoc | done | by apply Forall_app; split; [|constructor]].
    - eapply Forall_impl; [exact Hacc|]. intros q Hq. simpl in *. lia. }
  by apply H.
Qed.

Lemma map_fst_zip {A B} (l : list A) (ks : list B) :
  length l = length ks -> map fst (zip l ks) = l.
Proof.
  revert ks. induction l as [|x l IH]; intros [|k ks] Hlen; simpl in *; try done.
  f_equal. apply IH. lia.
Qed.

Lemma count_conflicts_zero P v x s :
  nbrs_empty (nbrs s) -> exists s', count_conflicts P v x s = (inr 0, s').
Proof.
  intros Hn. unfold count_conflicts, bind, set_asg, neighbors_of, del_asg. simpl.
  destruct (nbrs s !! v) as [l|] eqn:E.
  - rewrite (Hn v l E). simpl. rewrite lookup_insert_eq. by eexists.
  - simpl. rewrite lookup_insert_eq. by eexists.
Qed.

(** Without neighbours, [_order_values_by_least_conflicts] keeps the
    domain's order. *)
Lemma order_no_neighbors P v d s :
  nbrs_empty (nbrs s) -> domains P !! v = Some d ->
  exists s', order_values_by_least_conflicts P v s = (inr d, s').
Proof.
  intros Hn Hd. unfold order_values_by_least_conflicts.
  assert (E : domain_of P v s = (inr d, s)) by (unfold domain_of; by rewrite Hd).
  rewrite (bind_ok _ _ _ _ _ E). unfold sorted_by.
  assert (Hk : forall y t, y ∈ d -> nbrs_empty (nbrs t) ->
            exists n t', count_conflicts P v y t = (inr n, t') /\ nbrs_empty (nbrs t')).
  { intros y t _ Ht. destruct (count_conflicts_zero P v y t Ht) as (t' & Et).
    exists 0, t'. split; [done|]. pose proof (nbrs_count_conflicts P v y t) as N.
    rewrite Et in N. eapply nbrs_empty_ext; eauto. }
  destruct (mmap_total (count_conflicts P v) (fun t => nbrs_empty (nbrs t)) d Hk s Hn)
    as (ks & s1 & E1 & _).
  destruct (mmap_rel (count_conflicts P v) (fun _ n => n = 0) (fun t => nbrs_empty (nbrs t)) d)
    with (s := s) (ys := ks) (s' := s1) as [H2 _]; [| done | done |].
  { intros y t n t' Hy Ht Et. destruct (count_conflicts_zero P v y t Ht) as (t'' & Et').
    rewrite Et' in Et. injection Et as <- <-. split; [done|].
    pose proof (nbrs_count_conflicts P v y t) as N. rewrite Et' in N.
    eapply nbrs_empty_ext; eauto. }
  rewrite (bind_ok _ _ _ _ _ E1). exists s1. unfold ret.
  rewrite (stable_sort_const _ 0 (Forall2_zip _ _ _ H2)).
  rewrite map_fst_zip; [done|]. by apply Forall2_length in H2.
Qed.

Section NoConstraints.

Context (P : csp).
Hypothesis Hcs : constraints P = [].
Hypothesis Hnd : NoDup (variables P).
Hypothesis Hdom : forall v, v ∈ variables P -> exists x d, domains P !! v = Some (x :: d).

Lemma first_ok_unassigned a :
  first_ok P a -> size a <> length (variables P) -> unassigned_of P a <> [].
Proof.
  intros Ha Hs Hnil. apply Hs.
  assert (Hall : forall v, v ∈ variables P -> is_Some (a !! v)).
  { intros v Hv. destruct (a !! v) eqn:E; [by eexists|].
    assert (Hin : v ∈ unassigned_of P a) by (by apply unassigned_of_spec).
    rewrite Hnil in Hin. set_solver. }
  rewrite <- length_map_to_list, <- (length_fmap fst).
  apply Nat.le_antisymm.
  - apply NoDup_incl_length.
    + apply NoDup_ListNoDup, NoDup_fst_map_to_list.
    + intros k Hk. apply list_elem_of_In, keys_elem in Hk as [x Hx].
      apply list_elem_of_In. by destruct (Ha k x Hx).
  - apply NoDup_incl_length.
    + by apply NoDup_ListNoDup.
    + intros k Hk. apply list_elem_of_In, keys_elem, Hall, list_elem_of_In, Hk.
Qed.

Lemma rb_first fuel :
  forall s, first_ok P (asg s) -> nbrs_empty (nbrs s) ->
  length (unassigned_of P (asg s)) < fuel ->
  exists r s', recursive_backtracking P fuel s = (inr (Some r), s') /\
    first_ok P r /\ size r = length (variables P).
Proof.
  induction fuel as [|f IH]; intros s Ha Hn Hlen; [lia|]. simpl.
  set (s0 := {| asg := asg s; nbrs := nbrs s; entries := asg s :: entries s |}).
  rewrite (bind_ok _ _ _ _ _ (eq_refl : log_entry s = (inr tt, s0))).
  rewrite (bind_ok _ _ _ _ _ (eq_refl : get_asg s0 = (inr (asg s), s0))).
  destruct (size (asg s) =? length (variables P)) eqn:Ec.
  { do 2 eexists. split; [reflexivity|]. split; [done|]. by apply Nat.eqb_eq. }
  apply Nat.eqb_neq in Ec.
  assert (Hvars : forall v, v ∈ variables P -> is_Some (domains P !! v)).
  { intros v Hv. destruct (Hdom v Hv) as (x & d & Hd). by rewrite Hd. }
  destruct (select_total P s0 Hvars (first_ok_unassigned _ Ha Ec)) as (v & s1 & E1).
  rewrite (bind_ok _ _ _ _ _ E1).
  pose proof (select_in P s0 v s1 E1) as Hv. simpl in Hv.
  pose proof (asg_eq_select P s0) as A1. pose proof (nbrs_select P s0) as N1.
  rewrite E1 in A1, N1. unfold asg_eq, nbrs_rel in A1, N1. simpl in A1, N1.
  pose proof Hv as Hv'. apply unassigned_of_spec in Hv' as [Hvl Hfree].
  destruct (Hdom v Hvl) as (x0 & d0 & Hd).
  destruct (order_no_neighbors P v (x0 :: d0) s1) as (s2 & E2);
    [eapply nbrs_empty_ext; eauto | done |].
  rewrite (bind_ok _ _ _ _ _ E2).
  pose proof (order_restores P v s1 _ s2 E2) as A2.
  pose proof (nbrs_order P v s1) as N2. rewrite E2 in N2.
  unfold asg_free, nbrs_rel in A2, N2. simpl in N2.
  assert (Ha2 : asg s2 = asg s) by (rewrite A2; [done | by rewrite A1]).
  simpl. rewrite (bind_ok _ _ _ _ _ (is_valid_run P v x0 s2)).
  assert (Eb : fst (is_assignment_valid (constraints P) v x0 (asg s2)) = true)
    by (rewrite Hcs; reflexivity).
  rewrite Eb, Ha2, (delete_id _ _ Hfree).
  set (t2 := mkSt (<[v:=x0]> (asg s)) (nbrs s2) (entries s2)).
  rewrite (bind_ok _ _ _ _ _ (eq_refl : set_asg v x0 (mkSt (asg s) (nbrs s2) (entries s2))
                                         = (inr tt, t2))).
  destruct (IH t2) as (r & t3 & E3 & Hr & Hsize).
  - intros k y Hk. destruct (decide (k = v)) as [->|Hne].
    + simpl in Hk. rewrite lookup_insert_eq in Hk. injection Hk as <-. eauto.
    + simpl in Hk. rewrite lookup_insert_ne in Hk by done. eauto.
  - simpl. eapply nbrs_empty_ext; [eapply nbrs_empty_ext; eauto | exact N2].
  - simpl. pose proof (unassigned_commit P (asg s) v x0 Hv). lia.
  - rewrite (bind_ok _ _ _ _ _ E3).
    assert (Et : truthy (Some r) = true).
    { simpl. apply negb_true_iff, Nat.eqb_neq. rewrite Hsize.
      destruct (variables P); [set_solver | simpl; lia]. }
    rewrite Et. do 2 eexists. split; [reflexivity | done].
Qed.

End NoConstraints.

(** C7 (amended): with no constraints, a variable list without repetitions
    and a non-empty domain for every listed variable, [solve()] returns an
    assignment that binds every listed variable to the first value of its
    domain and binds nothing else. *)
Theorem solve_no_constraints_first_values (P : csp)
  (Hcs : constraints P = []) (Hnd : NoDup (variables P))
  (Hne : domains_nonempty P = true) :
  exists r, fst (solve P) = inr (Some r) /\
    (forall v, v ∈ variables P ->
       exists x d, domains P !! v = Some (x :: d) /\ r !! v = Some x) /\
    (forall v, v ∉ variables P -> r !! v = None).
Proof.
  pose proof (domains_nonempty_spec P Hne) as Hdom.
  unfold solve.
  destruct (rb_first P Hcs Hnd Hdom (S (length (variables P))) (init_state P))
    as (r & s' & E & Hr & Hsize).
  - intros k x Hk. simpl in Hk. by rewrite lookup_empty in Hk.
  - simpl. rewrite Hcs. intros k l Hk. unfold create_constraint_graph in Hk. simpl in Hk. by rewrite lookup_empty in Hk.
  - simpl. pose proof (unassigned_of_length P ∅). lia.
  - exists r. rewrite E. split; [done|]. split.
    + intros v Hv.
      assert (Hk : keys_in P r) by (intros k [x Hx]; by destruct (Hr k x Hx)).
      destruct (keys_cover (variables P) r Hk Hsize v Hv) as [x Hx].
      destruct (Hr v x Hx) as (_ & d & Hd). eauto.
    + intros v Hv. destruct (r !! v) as [x|] eqn:Hx; [|done].
      by destruct (Hr v x Hx).
Qed.

Lemma solve_no_constraints_first_values_witness :
  fst (solve free_csp) = inr (Some (list_to_map [("A", 2); ("B", 3)]%string%Z)) /\
  exists r, fst (solve free_csp) = inr (Some r) /\
    (forall v, v ∈ variables free_csp ->
       exists x d, domains free_csp !! v = Some (x :: d) /\ r !! v = Some x) /\
    (forall v, v ∉ variables free_csp -> r !! v = None).
Proof.
  split; [vm_compute; reflexivity|].
  apply solve_no_constraints_first_values.
  - reflexivity.
  - apply (bool_decide_unpack (NoDup (variables free_csp))). vm_compute. exact I.
  - vm_compute. reflexivity.
Defined.

(** C7 counterexample: no constraints and a non-empty domain, but [A] is
    listed twice: the second call finds no unassigned variable and [max]
    raises [ValueError]. *)
Lemma duplicate_variable_value_error_counterexample :
  constraints duplicate_csp = [] /\ domains_nonempty duplicate_csp = true /\
  fst (solve duplicate_csp) = inl ValueError.
Proof. split_and!; vm_compute; reflexivity. Qed.

(** * Further properties of the solver *)

(** ** Neighbours of the constraint graph *)

Lemma elem_of_concat_map {A B} (f : A -> list B) (l : list A) y :
  y ∈ concat (map f l) <-> exists x, x ∈ l /\ y ∈ f x.
Proof.
  induction l as [|x l IH]; simpl.
  - split; [intros H; inversion H | intros (x & Hx & _); inversion Hx].
  - rewrite elem_of_app, IH. split.
    + intros [H|(x' & ? & ?)]; [exists x | exists x']; split; set_solver.
    + intros (x' & Hx' & Hy). apply elem_of_cons in Hx' as [->|Hx']; [by left | right; eauto].
Qed.

Lemma graph_step_nb_get (c : constraint) vs n v :
  nb_get (fold_left (fun n u => <[u := nb_get n u ++ filter (fun w => w <> u) (c_vars c)]> n)
            vs n) v =
  nb_get n v ++ concat (map (fun u => if decide (u = v)
                                     then filter (fun w => w <> v) (c_vars c) else []) vs).
Proof.
  revert n. induction vs as [|u vs IH]; intros n; simpl.
  - by rewrite app_nil_r.
  - rewrite IH. unfold nb_get. destruct (decide (u = v)) as [->|Hne].
    + rewrite lookup_insert_eq. simpl. by rewrite app_assoc.
    + by rewrite lookup_insert_ne.
Qed.

Lemma graph_nb_get cs v :
  nb_get (create_constraint_graph cs) v =
  concat (map (fun c => concat (map (fun u => if decide (u = v)
                                   then filter (fun w => w <> v) (c_vars c) else []) (c_vars c)))
            cs).
Proof.
  unfold create_constraint_graph.
  assert (H : forall n, nb_get (fold_left (fun n c =>
    fold_left (fun n u => <[u := nb_get n u ++ filter (fun w => w <> u) (c_vars c)]> n)
      (c_vars c) n) cs n) v =
    nb_get n v ++ concat (map (fun c => concat (map (fun u => if decide (u = v)
                                   then filter (fun w => w <> v) (c_vars c) else []) (c_vars c)))
            cs)).
  { induction cs as [|c cs IH]; intros n; simpl; [by rewrite app_nil_r|].
    rewrite IH, graph_step_nb_get. by rewrite app_assoc. }
  rewrite H. unfold nb_get at 1. by rewrite lookup_empty.
Qed.

Lemma graph_step_keys (c : constraint) vs n k :
  is_Some (fold_left (fun n u => <[u := nb_get n u ++ filter (fun w => w <> u) (c_vars c)]> n)
            vs n !! k) <-> is_Some (n !! k) \/ k ∈ vs.
Proof.
  revert n. induction vs as [|u vs IH]; intros n; simpl.
  - set_solver.
  - rewrite IH, lookup_insert_is_Some, elem_of_cons.
    destruct (decide (u = k)); naive_solver.
Qed.

Lemma graph_keys_gen cs n k :
  is_Some (fold_left (fun n c =>
    fold_left (fun n u => <[u := nb_get n u ++ filter (fun w => w <> u) (c_vars c)]> n)
      (c_vars c) n) cs n !! k) <-> is_Some (n !! k) \/ exists c, c ∈ cs /\ k ∈ c_vars c.
Proof.
  revert n. induction cs as [|c cs IH]; intros n; simpl.
  - split; [by left | intros [H|(c & Hc & _)]; [done | inversion Hc]].
  - rewrite IH, graph_step_keys. split.
    + intros [[H|H]|(c' & ? & ?)]; [by left | right; exists c; split; [left|] | right; exists c'; split; [right|]]; done.
    + intros [H|(c' & Hc' & Hk)]; [by left; left|].
      apply elem_of_cons in Hc' as [->|Hc']; [left; by right | right; eauto].
Qed.

Lemma length_filter_neq (l : list var) v :
  NoDup l ->
  length (filter (fun w => w <> v) l) = if decide (v ∈ l) then length l - 1 else length l.
Proof.
  induction 1 as [|u l Hu Hnd IH]; [done|].
  rewrite filter_cons. destruct (decide (u <> v)) as [Hne|Heq]; simpl.
  - rewrite IH. destruct (decide (v ∈ l)) as [Hv|Hv], (decide (v ∈ u :: l)) as [Hv'|Hv'];
      try set_solver.
    assert (0 < length l) by (destruct l; [set_solver | simpl; lia]). lia.
  - assert (u = v) as -> by (destruct (decide (u = v)); [done | tauto]).
    rewrite IH, decide_False, decide_True by set_solver. simpl. lia.
Qed.

Lemma length_concat_map_single (l : list var) v (X : list var) :
  NoDup l ->
  length (concat (map (fun u => if decide (u = v) then X else []) l)) =
  if decide (v ∈ l) then length X else 0.
Proof.
  induction 1 as [|u l Hu Hnd IH]; [done|]. simpl. rewrite length_app, IH.
  destruct (decide (u = v)) as [->|Hne].
  - rewrite decide_False, decide_True by set_solver. lia.
  - destruct (decide (v ∈ l)), (decide (v ∈ u :: l)); set_solver.
Qed.

(** X1: the neighbour list of [v] in the constraint graph holds exactly the
    variables other than [v] that share a constraint tuple with [v]. *)
Theorem graph_neighbors_spec (cs : list constraint) (v w : var) :
  w ∈ nb_get (create_constraint_graph cs) v <->
  exists c, c ∈ cs /\ v ∈ c_vars c /\ w ∈ c_vars c /\ w <> v.
Proof.
  rewrite graph_nb_get, elem_of_concat_map. split.
  - intros (c & Hc & Hw). apply elem_of_concat_map in Hw as (u & Hu & Hw).
    destruct (decide (u = v)) as [->|Hne]; [|set_solver].
    apply list_elem_of_filter in Hw as [Hne Hw]. eauto.
  - intros (c & Hc & Hv & Hw & Hne). exists c. split; [done|].
    apply elem_of_concat_map. exists v. split; [done|].
    rewrite decide_True by done. by apply list_elem_of_filter.
Qed.

(** X2: the constraint graph has a key for [v] exactly when [v] occurs in the
    tuple of some constraint. *)
Theorem graph_keys_spec (cs : list constraint) (v : var) :
  is_Some (create_constraint_graph cs !! v) <-> exists c, c ∈ cs /\ v ∈ c_vars c.
Proof.
  unfold create_constraint_graph. rewrite graph_keys_gen, lookup_empty.
  split; [intros [[? H]|H]; [discriminate | done] | by right].
Qed.

(** X3: when no tuple repeats a variable, the length of [v]'s neighbour list
    (the degree used by the selector) is the sum, over the constraints whose
    tuple contains [v], of the tuple length minus one; a variable shared by
    two constraints is counted twice. *)
Theorem graph_degree (cs : list constraint) (v : var)
  (Hnd : Forall (fun c => NoDup (c_vars c)) cs) :
  length (nb_get (create_constraint_graph cs) v) =
  sum_list_with (fun c => if decide (v ∈ c_vars c) then length (c_vars c) - 1 else 0) cs.
Proof.
  rewrite graph_nb_get. induction Hnd as [|c cs Hc Hnd IH]; [done|].
  simpl. rewrite length_app, IH, length_concat_map_single by done.
  destruct (decide (v ∈ c_vars c)) as [Hv|Hv]; [|done].
  rewrite length_filter_neq by done. by rewrite decide_True by done.
Qed.

Lemma graph_degree_witness :
  length (nb_get (create_constraint_graph (constraints example)) "B") = 5 /\
  length (nb_get (create_constraint_graph (constraints example)) "B") =
  sum_list_with (fun c => if decide ("B" ∈ c_vars c) then length (c_vars c) - 1 else 0)
    (constraints example).
Proof.
  split; [vm_compute; reflexivity|].
  apply graph_degree.
  apply (bool_decide_unpack (Forall (fun c => NoDup (c_vars c)) (constraints example))).
  vm_compute. exact I.
Defined.

(** ** Rejections under a larger assignment *)

Lemma tuple_values_weaken (a b : assignment) vs vals :
  a ⊆ b -> tuple_values a vs = Some vals -> tuple_values b vs = Some vals.
Proof.
  unfold tuple_values. intros Hab. revert vals.
  induction vs as [|w vs IH]; intros vals; simpl; [done|].
  destruct (a !! w) as [x|] eqn:Ew; [|discriminate].
  rewrite (lookup_weaken a b w x Ew Hab).
  destruct (all_present (map (fun v => a !! v) vs)) as [l|] eqn:E; [|discriminate].
  by rewrite (IH l eq_refl).
Qed.

(** X4: a value that [_is_assignment_valid] rejects under an assignment is
    still rejected under any assignment extending it. *)
Theorem is_valid_rejection_persists (P : csp) (v : var) (x : Z) (s t : st)
  (Hsub : asg s ⊆ asg t) (Hrej : fst (is_valid P v x s) = inr false) :
  fst (is_valid P v x t) = inr false.
Proof.
  rewrite is_valid_run in Hrej |- *. simpl in *. injection Hrej as Hrej. f_equal.
  apply is_assignment_valid_false in Hrej as (c & vals & Hc & Hin & Hv & Hp).
  apply is_assignment_valid_false. exists c, vals. split_and!; try done.
  eapply tuple_values_weaken; [|exact Hv]. by apply insert_mono.
Qed.

Lemma is_valid_rejection_persists_witness :
  fst (is_valid example "C" 1 (mkSt (<["E" := 2%Z]> ∅) ∅ [])) = inr false /\
  fst (is_valid example "C" 1 (mkSt (<["A" := 3%Z]> (<["E" := 2%Z]> ∅)) ∅ [])) = inr false.
Proof.
  split; [vm_compute; reflexivity|].
  apply (is_valid_rejection_persists example "C" 1 (mkSt (<["E" := 2%Z]> ∅) ∅ [])).
  - simpl. apply insert_subseteq. vm_compute. reflexivity.
  - vm_compute. reflexivity.
Defined.

(** ** Stability of [sorted] *)

Lemma filter_key_nil {A} (l : list (A * nat)) n :
  (forall r, r ∈ l -> n < r.2) -> filter (fun q => q.2 = n) l = [].
Proof.
  induction l as [|r l IH]; intros Hl; [done|].
  rewrite filter_cons, decide_False; [apply IH; set_solver|].
  assert (n < r.2) by set_solver. lia.
Qed.

Lemma insert_by_key_filter {A} (p : A * nat) l n :
  StronglySorted key_sorted l ->
  filter (fun q => q.2 = n) (insert_by_key p l) = filter (fun q => q.2 = n) (l ++ [p]).
Proof.
  induction l as [|q l IH]; intros Hs; simpl; [done|].
  apply StronglySorted_inv in Hs as [Hs Hq].
  destruct (Nat.leb_spec (snd q) (snd p)) as [Hle|Hlt].
  - rewrite !filter_cons, IH by done. done.
  - assert (Hgt : forall r, r ∈ q :: l -> p.2 < r.2).
    { intros r Hr. apply elem_of_cons in Hr as [->|Hr]; [lia|].
      pose proof (proj1 (Forall_forall _ _) Hq r Hr) as H. unfold key_sorted in H. lia. }
    assert (Hnil : filter (fun r => r.2 = p.2) (q :: l) = []) by (by apply filter_key_nil).
    rewrite app_comm_cons, filter_app.
    change (filter (fun q => q.2 = n) (p :: q :: l)) with
      (if decide (p.2 = n) then p :: filter (fun q => q.2 = n) (q :: l)
       else filter (fun q => q.2 = n) (q :: l)).
    change (filter (fun q => q.2 = n) [p]) with
      (if decide (p.2 = n) then [p] else []).
    destruct (decide (p.2 = n)) as [<-|Hne].
    + by rewrite Hnil.
    + by rewrite app_nil_r.
Qed.

Lemma stable_sort_filter {A} (l : list (A * nat)) n :
  filter (fun q => q.2 = n) (stable_sort l) = filter (fun q => q.2 = n) l.
Proof.
  unfold stable_sort.
  assert (H : forall acc, StronglySorted key_sorted acc ->
    filter (fun q => q.2 = n) (fold_left (fun acc p => insert_by_key p acc) l acc) =
    filter (fun q => q.2 = n) (acc ++ l)).
  { induction l as [|p l IH]; intros acc Hacc; simpl; [by rewrite app_nil_r|].
    rewrite IH by (by apply insert_by_key_sorted).
    rewrite filter_app, insert_by_key_filter by done.
    rewrite <- filter_app, <- app_assoc. done. }
  rewrite H; [done | constructor].
Qed.

Lemma filter_map_fst {A} (k : A -> nat) (ps : list (A * nat)) n :
  Forall (fun p => p.2 = k p.1) ps ->
  filter (fun x => k x = n) (map fst ps) = map fst (filter (fun p => p.2 = n) ps).
Proof.
  induction 1 as [|p ps Hp Hps IH]; [done|]. simpl.
  rewrite !filter_cons, <- Hp.
  destruct (decide (p.2 = n)); simpl; by rewrite IH.
Qed.

Lemma Forall2_key {A} (k : A -> nat) l ks :
  Forall2 (fun x n => n = k x) l ks -> ks = map k l.
Proof. induction 1; simpl; congruence. Qed.

(** [sorted(l, key=key)] with a key that computes [k]: the result is a
    permutation of [l], sorted by [k], and keeps the order of [l] among
    elements of equal key. *)
Lemma sorted_by_stable {A} (key : A -> M nat) (k : A -> nat) (I : st -> Prop)
    (l : list A) s l' s' :
  (forall x s n s', x ∈ l -> I s -> key x s = (inr n, s') -> n = k x /\ I s') ->
  I s -> sorted_by key l s = (inr l', s') ->
  I s' /\ l' ≡ₚ l /\ StronglySorted (fun x y => k x <= k y) l' /\
  forall n, filter (fun x => k x = n) l' = filter (fun x => k x = n) l.
Proof.
  intros Hk Hs E. pose proof (sorted_by_perm _ _ _ _ _ E) as Hperm.
  unfold sorted_by, bind in E.
  destruct (mmap key l s) as [[e|ks] s1] eqn:E1; [discriminate|].
  injection E as <- <-.
  destruct (mmap_rel key (fun x n => n = k x) I l Hk s ks s1 Hs E1) as [H2 Hs1].
  apply Forall2_key in H2 as ->.
  assert (Hzip : Forall (fun p => p.2 = k p.1) (zip l (map k l))).
  { clear. induction l as [|x l IH]; simpl; by constructor. }
  assert (Hgood : Forall (fun p => p.2 = k p.1) (stable_sort (zip l (map k l))))
    by (by rewrite stable_sort_perm).
  assert (Hfst : map fst (zip l (map k l)) = l).
  { clear. induction l; simpl; congruence. }
  split_and!; [done | done | |].
  - apply (sorted_map_fst _ (fun p => p.2 = k p.1)); [apply stable_sort_sorted | done |].
    intros p q Hp Hq Hle. unfold key_sorted in Hle. lia.
  - intros n. rewrite (filter_map_fst k) by done. rewrite stable_sort_filter.
    rewrite <- (filter_map_fst k) by done. by rewrite Hfst.
Qed.

(** ** The variable selector *)

Lemma mmap_domain_size_err P l s :
  (exists u, u ∈ l /\ domains P !! u = None) ->
  mmap (domain_size P) l s = (inl KeyError, s).
Proof.
  induction l as [|x l IH]; intros (u & Hu & Hn); [inversion Hu|]. simpl.
  destruct (domains P !! x) as [d|] eqn:Ex.
  - assert (E : domain_size P x s = (inr (length d), s))
      by (unfold domain_size, bind, domain_of; by rewrite Ex).
    assert (Hl : exists u, u ∈ l /\ domains P !! u = None).
    { exists u. apply elem_of_cons in Hu as [->|Hu]; [congruence | done]. }
    by rewrite (bind_ok _ _ _ _ _ E), (bind_err _ _ _ _ _ (IH Hl)).
  - assert (E : domain_size P x s = (inl KeyError, s))
      by (unfold domain_size, bind, domain_of; by rewrite Ex).
    by rewrite (bind_err _ _ _ _ _ E).
Qed.

(** X5: the variable selector raises [ValueError] when no listed variable is
    unassigned, [KeyError] when an unassigned variable has no domain, and
    otherwise returns a variable. *)
Theorem select_errors (P : csp) (s : st) :
  (unassigned_of P (asg s) = [] -> fst (select_next_variable P s) = inl ValueError) /\
  ((exists u, u ∈ unassigned_of P (asg s) /\ domains P !! u = None) ->
   fst (select_next_variable P s) = inl KeyError) /\
  ((forall u, u ∈ unassigned_of P (asg s) -> is_Some (domains P !! u)) ->
   unassigned_of P (asg s) <> [] -> exists v, fst (select_next_variable P s) = inr v).
Proof.
  unfold select_next_variable.
  rewrite (bind_ok _ _ _ _ _ (eq_refl : get_asg s = (inr (asg s), s))).
  split_and!.
  - intros ->. reflexivity.
  - intros Hmiss.
    assert (E : sorted_by (domain_size P) (unassigned_of P (asg s)) s = (inl KeyError, s)).
    { unfold sorted_by. apply bind_err. by apply mmap_domain_size_err. }
    by rewrite (bind_err _ _ _ _ _ E).
  - intros Hdom Hne.
    destruct (sorted_by_total (domain_size P) (fun _ => True) (unassigned_of P (asg s)))
      with (s := s) as (L & s1 & E1 & _); [| done |].
    { intros x t Hx _. destruct (Hdom x Hx) as [d Hd].
      unfold domain_size, bind, domain_of. rewrite Hd. simpl. eauto. }
    rewrite (bind_ok _ _ _ _ _ E1). apply sorted_by_perm in E1.
    destruct L as [|x L].
    + apply Permutation_nil in E1. by rewrite E1 in Hne.
    + simpl. destruct (degree_total x s1) as (kx & s2 & E2).
      rewrite (bind_ok _ _ _ _ _ E2).
      destruct (max_go_total degree L degree_total x kx s2) as (v & s3 & E3).
      rewrite E3. by exists v.
Qed.

Lemma filter_none {A} (Q : A -> Prop) `{!forall x, Decision (Q x)} (l : list A) :
  (forall x, x ∈ l -> ~ Q x) -> filter Q l = [].
Proof.
  induction l as [|x l IH]; intros Hl; [done|].
  rewrite filter_cons, decide_False by set_solver. apply IH. set_solver.
Qed.

Lemma filter_and {A} (Q1 Q2 : A -> Prop) `{!forall x, Decision (Q1 x), !forall x, Decision (Q2 x)}
    (l : list A) :
  filter (fun x => Q1 x /\ Q2 x) l = filter Q1 (filter Q2 l).
Proof. by rewrite list_filter_filter. Qed.

(** X6: among the unassigned variables with the same neighbour count and the
    same domain size as the selected one, the selected one comes first in
    the order of the variable list. *)
Theorem select_first_among_ties (P : csp) (s : st) (v : var) (s' : st)
  (Hsel : select_next_variable P s = (inr v, s')) :
  head (filter (fun u => length (nb_get (nbrs s) u) = length (nb_get (nbrs s) v) /\
                         domain_len P u = domain_len P v)
          (unassigned_of P (asg s))) = Some v.
Proof.
  unfold select_next_variable in Hsel.
  rewrite (bind_ok _ _ _ _ _ (eq_refl : get_asg s = (inr (asg s), s))) in Hsel.
  destruct (sorted_by (domain_size P) (unassigned_of P (asg s)) s) as [[e|L] s1] eqn:E1.
  { by rewrite (bind_err _ _ _ _ _ E1) in Hsel. }
  rewrite (bind_ok _ _ _ _ _ E1) in Hsel.
  destruct (sorted_by_stable (domain_size P) (domain_len P) (fun t => t = s)
              (unassigned_of P (asg s)) s L s1) as (-> & _ & _ & Hstab); [| done | done |].
  { intros x t n t' _ -> E. apply domain_size_spec in E as [(d & Hd & ->) ->].
    unfold domain_len. by rewrite Hd. }
  destruct (max_by_spec degree (fun u => length (nb_get (nbrs s) u))
              (fun t => forall u, nb_get (nbrs t) u = nb_get (nbrs s) u) L s v s')
    as (pre & post & HLv & Hpre & _); [| done | done |].
  { intros x t n t' _ Ht E. by apply (degree_spec (nbrs s)) in E. }
  rewrite (filter_and (fun u => length (nb_get (nbrs s) u) = length (nb_get (nbrs s) v))
             (fun u => domain_len P u = domain_len P v)).
  rewrite <- (Hstab (domain_len P v)), HLv, !filter_app.
  rewrite (filter_none _ (filter _ pre)).
  - rewrite app_nil_l, filter_cons, decide_True by done.
    rewrite filter_cons, decide_True by done. done.
  - intros u Hu. apply list_elem_of_filter in Hu as [_ Hu].
    pose proof (proj1 (Forall_forall _ _) Hpre u Hu) as H. cbn beta in H. lia.
Qed.

Lemma select_first_among_ties_witness :
  filter (fun u => length (nb_get (nbrs (init_state free_csp)) u) =
                   length (nb_get (nbrs (init_state free_csp)) "A") /\
                   domain_len free_csp u = domain_len free_csp "A")
    (unassigned_of free_csp (asg (init_state free_csp))) = ["A"; "B"] /\
  head (filter (fun u => length (nb_get (nbrs (init_state free_csp)) u) =
                         length (nb_get (nbrs (init_state free_csp)) "A") /\
                         domain_len free_csp u = domain_len free_csp "A")
          (unassigned_of free_csp (asg (init_state free_csp)))) = Some "A".
Proof.
  split; [vm_compute; reflexivity|].
  apply (select_first_among_ties free_csp (init_state free_csp) "A"
           (snd (select_next_variable free_csp (init_state free_csp)))).
  vm_compute. reflexivity.
Defined.

(** ** Conflict counts and value order *)

Lemma valid_count_loop P w d : forall acc u r u',
  asg u !! w = None ->
  mfold (fun n val => let* ok := is_valid P w val in ret (if ok then n else S n)) acc d u
    = (inr r, u') ->
  r = acc + length (filter (fun y => fst (is_assignment_valid (constraints P) w y (asg u)) = false) d)
  /\ asg u' = asg u /\ nbrs u' = nbrs u.
Proof.
  induction d as [|y d IH]; intros acc u r u' Hw E; simpl in E.
  - injection E as <- <-. simpl. split; [lia | done].
  - assert (E1 : bind (is_valid P w y) (fun ok => ret (if ok then acc else S acc)) u =
                 (inr (if fst (is_assignment_valid (constraints P) w y (asg u)) then acc else S acc),
                  mkSt (delete w (asg u)) (nbrs u) (entries u))).
    { rewrite (bind_ok _ _ _ _ _ (is_valid_run P w y u)). reflexivity. }
    rewrite (bind_ok _ _ _ _ _ E1), (delete_id _ _ Hw) in E.
    apply IH in E as (Hr & Ha & Hn); [|done]. simpl in Hr, Ha, Hn. subst r.
    split_and!; [|done|done].
    rewrite filter_cons.
    destruct (fst (is_assignment_valid (constraints P) w y (asg u))).
    + rewrite decide_False by done. lia.
    + rewrite decide_True by done. simpl. lia.
Qed.

Lemma neighbor_conflicts_value P w u r u' :
  asg u !! w = None -> neighbor_conflicts P w u = (inr r, u') ->
  r = rejected_values P (asg u) w /\ asg u' = asg u /\ nbrs u' = nbrs u.
Proof.
  intros Hw E. unfold neighbor_conflicts in E.
  destruct (domains P !! w) as [d|] eqn:Ed.
  - assert (E0 : domain_of P w u = (inr d, u)) by (unfold domain_of; by rewrite Ed).
    rewrite (bind_ok _ _ _ _ _ E0) in E. apply valid_count_loop in E as (-> & ? & ?); [|done].
    unfold rejected_values. rewrite Ed. done.
  - assert (E0 : domain_of P w u = (inl KeyError, u)) by (unfold domain_of; by rewrite Ed).
    by rewrite (bind_err _ _ _ _ _ E0) in E.
Qed.

Lemma conflicts_loop_value P ns : forall acc u r u',
  mfold (conflicts_step P) acc ns u = (inr r, u') ->
  r = acc + sum_list_with (fun w => if decide (asg u !! w = None)
                                    then rejected_values P (asg u) w else 0) ns /\
  asg u' = asg u /\ nbrs u' = nbrs u.
Proof.
  induction ns as [|w ns IH]; intros acc u r u' E; simpl in E.
  - injection E as <- <-. simpl. split; [lia | done].
  - destruct (conflicts_step P acc w u) as [[e|acc'] u1] eqn:E1;
      [by rewrite (bind_err _ _ _ _ _ E1) in E|].
    rewrite (bind_ok _ _ _ _ _ E1) in E.
    assert (H1 : acc' = acc + (if decide (asg u !! w = None) then rejected_values P (asg u) w else 0)
                 /\ asg u1 = asg u /\ nbrs u1 = nbrs u).
    { unfold conflicts_step in E1.
      rewrite (bind_ok _ _ _ _ _ (eq_refl : get_asg u = (inr (asg u), u))) in E1.
      destruct (decide (asg u !! w = None)) as [Hn|Hn].
      - destruct (neighbor_conflicts P w u) as [[e|k] u2] eqn:E2;
          [by rewrite (bind_err _ _ _ _ _ E2) in E1|].
        rewrite (bind_ok _ _ _ _ _ E2) in E1. injection E1 as <- <-.
        apply neighbor_conflicts_value in E2 as (-> & ? & ?); [|done]. split_and!; [lia|done|done].
      - injection E1 as <- <-. split_and!; [lia|done|done]. }
    destruct H1 as (-> & Ha & Hn). apply IH in E as (-> & Ha' & Hn').
    rewrite Ha', Ha, Hn', Hn. simpl. split_and!; [lia | done | done].
Qed.

Lemma count_conflicts_value P v x s r s' :
  count_conflicts P v x s = (inr r, s') ->
  r = conflicts_of P (nbrs s) (asg s) v x /\ asg s' = delete v (asg s) /\
  forall k, nb_get (nbrs s') k = nb_get (nbrs s) k.
Proof.
  intros E. rewrite count_conflicts_unfold in E.
  rewrite (bind_ok _ _ _ _ _ (eq_refl : set_asg v x s =
             (inr tt, mkSt (<[v:=x]> (asg s)) (nbrs s) (entries s)))) in E.
  destruct (neighbors_of v (mkSt (<[v:=x]> (asg s)) (nbrs s) (entries s)))
    as [[e|ns] s2] eqn:E2; [by rewrite (bind_err _ _ _ _ _ E2) in E|].
  rewrite (bind_ok _ _ _ _ _ E2) in E.
  assert (Hns : ns = nb_get (nbrs s) v /\ asg s2 = <[v:=x]> (asg s) /\
                forall k, nb_get (nbrs s2) k = nb_get (nbrs s) k).
  { unfold neighbors_of in E2. simpl in E2. unfold nb_get.
    destruct (nbrs s !! v) as [l|] eqn:Ev; injection E2 as <- <-; simpl; split_and!; try done.
    intros k. destruct (decide (k = v)) as [->|Hne].
    - by rewrite lookup_insert_eq, Ev.
    - by rewrite lookup_insert_ne. }
  destruct Hns as (-> & Ha2 & Hn2).
  destruct (mfold (conflicts_step P) 0 (nb_get (nbrs s) v) s2) as [[e|cc] s3] eqn:E3;
    [by rewrite (bind_err _ _ _ _ _ E3) in E|].
  rewrite (bind_ok _ _ _ _ _ E3) in E.
  apply conflicts_loop_value in E3 as (-> & Ha3 & Hn3).
  assert (Edel : del_asg v s3 = (inr tt, mkSt (delete v (asg s3)) (nbrs s3) (entries s3)))
    by (unfold del_asg; by rewrite Ha3, Ha2, lookup_insert_eq).
  rewrite (bind_ok _ _ _ _ _ Edel) in E. injection E as <- <-. simpl.
  split_and!.
  - unfold conflicts_of. by rewrite Ha2.
  - rewrite Ha3, Ha2. apply delete_insert_eq.
  - intros k. rewrite Hn3. apply Hn2.
Qed.

(** X7: [count_conflicts(variable, value)] returns the sum, over the neighbours
    of [variable] left unassigned once [variable] is bound to [value], of the
    values of their domains that this binding makes invalid; it leaves the
    assignment without [variable]. *)
Theorem count_conflicts_closed_form (P : csp) (v : var) (x : Z) (s : st) (r : nat) (s' : st)
  (E : count_conflicts P v x s = (inr r, s')) :
  r = conflicts_of P (nbrs s) (asg s) v x /\ asg s' = delete v (asg s).
Proof. apply count_conflicts_value in E as (? & ? & _). done. Qed.

Lemma count_conflicts_closed_form_witness :
  fst (count_conflicts example "A" 1 (init_state example)) = inr 2 /\
  2 = conflicts_of example (nbrs (init_state example)) (asg (init_state example)) "A" 1 /\
  asg (snd (count_conflicts example "A" 1 (init_state example))) =
  delete "A" (asg (init_state example)).
Proof.
  split; [vm_compute; reflexivity|].
  apply (count_conflicts_closed_form example "A" 1 (init_state example) 2
           (snd (count_conflicts example "A" 1 (init_state example)))).
  vm_compute. reflexivity.
Defined.

Lemma conflicts_of_congr P n n' a a' v x :
  (forall k, nb_get n k = nb_get n' k) -> delete v a = delete v a' ->
  conflicts_of P n a v x = conflicts_of P n' a' v x.
Proof.
  intros Hn Ha. unfold conflicts_of. rewrite Hn.
  rewrite <- (insert_delete_eq a), <- (insert_delete_eq a'), Ha. done.
Qed.

(** X8: [_order_values_by_least_conflicts] returns a permutation of the domain,
    sorted by increasing conflict count, and values with equal counts keep
    their order in the domain. *)
Theorem order_values_spec (P : csp) (v : var) (s : st) (vals : list Z) (s' : st)
  (E : order_values_by_least_conflicts P v s = (inr vals, s')) :
  exists d, domains P !! v = Some d /\ vals ≡ₚ d /\
    StronglySorted (fun x y => conflicts_of P (nbrs s) (asg s) v x <=
                               conflicts_of P (nbrs s) (asg s) v y) vals /\
    forall n, filter (fun x => conflicts_of P (nbrs s) (asg s) v x = n) vals =
              filter (fun x => conflicts_of P (nbrs s) (asg s) v x = n) d.
Proof.
  unfold order_values_by_least_conflicts in E.
  destruct (domains P !! v) as [d|] eqn:Ed.
  2:{ assert (E0 : domain_of P v s = (inl KeyError, s)) by (unfold domain_of; by rewrite Ed).
      by rewrite (bind_err _ _ _ _ _ E0) in E. }
  assert (E0 : domain_of P v s = (inr d, s)) by (unfold domain_of; by rewrite Ed).
  rewrite (bind_ok _ _ _ _ _ E0) in E. exists d. split; [done|].
  destruct (sorted_by_stable (count_conflicts P v) (conflicts_of P (nbrs s) (asg s) v)
              (fun t => delete v (asg t) = delete v (asg s) /\
                        forall k, nb_get (nbrs t) k = nb_get (nbrs s) k) d s vals s')
    as (_ & Hperm & Hsorted & Hstab); [| done | done | done].
  intros x t n t' _ [Ha Hn] Et. apply count_conflicts_value in Et as (-> & Ha' & Hn').
  split; [by apply conflicts_of_congr|]. split.
  - by rewrite Ha', delete_delete_eq.
  - intros k. by rewrite Hn', Hn.
Qed.

Lemma order_values_spec_witness :
  fst (order_values_by_least_conflicts example "D" (init_state example)) = inr [2; 1; 3]%Z /\
  exists d, domains example !! "D" = Some d /\ [2; 1; 3]%Z ≡ₚ d /\
    StronglySorted (fun x y => conflicts_of example (nbrs (init_state example))
                                 (asg (init_state example)) "D" x <=
                               conflicts_of example (nbrs (init_state example))
                                 (asg (init_state example)) "D" y) [2; 1; 3]%Z /\
    forall n, filter (fun x => conflicts_of example (nbrs (init_state example))
                                 (asg (init_state example)) "D" x = n) [2; 1; 3]%Z =
              filter (fun x => conflicts_of example (nbrs (init_state example))
                                 (asg (init_state example)) "D" x = n) d.
Proof.
  split; [vm_compute; reflexivity|].
  apply (order_values_spec example "D" (init_state example) [2; 1; 3]%Z
           (snd (order_values_by_least_conflicts example "D" (init_state example)))).
  vm_compute. reflexivity.
Defined.

(** ** The search *)

(** X9: every binding of an assignment returned by [solve] is a listed
    variable bound to a value of its domain. *)
Theorem solve_values_in_domains (P : csp) :
  match fst (solve P) with
  | inr (Some r) => forall k x, r !! k = Some x ->
      k ∈ variables P /\ exists d, domains P !! k = Some d /\ x ∈ d
  | _ => True
  end.
Proof.
  unfold solve.
  destruct (rb_good_rb P (asg_ok P) (asg_ok_commit P) (S (length (variables P))) (init_state P))
    as (_ & _ & Hsome); [apply asg_ok_empty | constructor |].
  destruct (recursive_backtracking P _ (init_state P)) as [[e|[r|]] s'] eqn:E; simpl; try done.
  simpl in Hsome. by destruct (Hsome r eq_refl) as (_ & ? & _).
Qed.

(** X10: [solve] returns the shared assignment object itself when it finds a
    solution, and leaves it empty when it returns [None]. *)
Theorem solve_undoes_bindings (P : csp) :
  match fst (solve P) with
  | inr None => asg (snd (solve P)) = ∅
  | inr (Some r) => asg (snd (solve P)) = r
  | inl _ => True
  end.
Proof.
  unfold solve.
  destruct (rb_good_rb P (fun _ => True) (fun _ _ _ _ _ _ _ _ _ _ => I)
              (S (length (variables P))) (init_state P))
    as (_ & Hnone & Hsome); [done | constructor |].
  destruct (recursive_backtracking P _ (init_state P)) as [[e|[r|]] s'] eqn:E; simpl; try done.
  - simpl in Hsome. by destruct (Hsome r eq_refl).
  - simpl in Hnone. by apply Hnone.
Qed.

Lemma nodup_unassigned P a :
  NoDup (variables P) -> keys_in P a -> size a <> length (variables P) ->
  unassigned_of P a <> [].
Proof.
  intros Hnd Ha Hs Hnil. apply Hs.
  assert (Hall : forall v, v ∈ variables P -> is_Some (a !! v)).
  { intros v Hv. destruct (a !! v) eqn:E; [by eexists|].
    assert (Hin : v ∈ unassigned_of P a) by (by apply unassigned_of_spec).
    rewrite Hnil in Hin. set_solver. }
  rewrite <- length_map_to_list, <- (length_fmap fst).
  apply Nat.le_antisymm.
  - apply NoDup_incl_length.
    + apply NoDup_ListNoDup, NoDup_fst_map_to_list.
    + intros k Hk. apply list_elem_of_In, keys_elem in Hk.
      apply list_elem_of_In. by apply Ha.
  - apply NoDup_incl_length.
    + by apply NoDup_ListNoDup.
    + intros k Hk. apply list_elem_of_In, keys_elem, Hall, list_elem_of_In, Hk.
Qed.

Lemma is_solution_spec P sol :
  is_solution P sol = true ->
  (forall v, v ∈ variables P ->
     exists x d, sol !! v = Some x /\ domains P !! v = Some d /\ x ∈ d) /\
  (forall c vals, c ∈ constraints P -> tuple_values sol (c_vars c) = Some vals ->
     c_pred c vals = true).
Proof.
  unfold is_solution. intros H. apply andb_prop in H as [H1 H2].
  rewrite forallb_forall in H1, H2. split.
  - intros v Hv. apply list_elem_of_In, H1 in Hv.
    destruct (sol !! v) as [x|], (domains P !! v) as [d|]; try discriminate.
    apply bool_decide_eq_true in Hv. eauto.
  - intros c vals Hc Hv. apply list_elem_of_In, H2 in Hc. by rewrite Hv in Hc.
Qed.

Lemma valid_under_solution P sol a v x :
  (forall c vals, c ∈ constraints P -> tuple_values sol (c_vars c) = Some vals ->
     c_pred c vals = true) ->
  a ⊆ sol -> sol !! v = Some x ->
  fst (is_assignment_valid (constraints P) v x a) = true.
Proof.
  intros Hcs Ha Hx. destruct (fst _) eqn:Eb; [done|].
  apply is_assignment_valid_false in Eb as (c & vals & Hc & _ & Hv & Hp).
  assert (Hsub : <[v:=x]> a ⊆ sol) by (by apply insert_subseteq_l).
  rewrite (Hcs c vals Hc (tuple_values_weaken _ _ _ _ Hsub Hv)) in Hp. discriminate.
Qed.

Section Complete.

Context (P : csp) (sol : assignment).
Hypothesis Hvars : forall v, v ∈ variables P -> is_Some (domains P !! v).
Hypothesis Hsel : forall a, asg_ok P a -> size a <> length (variables P) ->
  unassigned_of P a <> [].
Hypothesis Hsol_vars : forall v, v ∈ variables P ->
  exists x d, sol !! v = Some x /\ domains P !! v = Some d /\ x ∈ d.
Hypothesis Hsol_cs : forall c vals, c ∈ constraints P ->
  tuple_values sol (c_vars c) = Some vals -> c_pred c vals = true.

Lemma try_values_complete f v d xv
  (IH : forall s, asg_ok P (asg s) -> nbrs_ok P (nbrs s) -> Forall (asg_ok P) (entries s) ->
        length (unassigned_of P (asg s)) < f -> asg s ⊆ sol ->
        exists r s', recursive_backtracking P f s = (inr (Some r), s')) a :
  v ∈ unassigned_of P a -> length (unassigned_of P a) <= f -> asg_ok P a ->
  domains P !! v = Some d -> a ⊆ sol -> sol !! v = Some xv ->
  forall vals t, asg t = a -> nbrs_ok P (nbrs t) -> Forall (asg_ok P) (entries t) ->
  (forall x, x ∈ vals -> x ∈ d) -> xv ∈ vals ->
  exists r t', try_values P (recursive_backtracking P f) v vals t = (inr (Some r), t').
Proof.
  intros Hv Hlen Ha Hd Hsub Hxv. pose proof Hv as Hv'.
  apply unassigned_of_spec in Hv' as [Hvl Hfree].
  assert (Htruthy : forall y, size y = length (variables P) -> truthy (Some y) = true).
  { intros y Hsize. simpl. apply negb_true_iff, Nat.eqb_neq. rewrite Hsize.
    destruct (variables P); [set_solver | simpl; lia]. }
  induction vals as [|x vals IHv]; intros t Hta Hn He Hvals Hin; [inversion Hin|]. simpl.
  rewrite (bind_ok _ _ _ _ _ (is_valid_run P v x t)). rewrite Hta, (delete_id _ _ Hfree).
  destruct (decide (x = xv)) as [->|Hne].
  - assert (Eb : fst (is_assignment_valid (constraints P) v xv a) = true)
      by (eapply valid_under_solution; eauto).
    rewrite Eb.
    set (t2 := mkSt (<[v:=xv]> a) (nbrs t) (entries t)).
    rewrite (bind_ok _ _ _ _ _ (eq_refl : set_asg v xv (mkSt a (nbrs t) (entries t))
                                           = (inr tt, t2))).
    assert (Hok2 : asg_ok P (<[v:=xv]> a)) by (eapply asg_ok_commit; eauto; set_solver).
    destruct (IH t2 Hok2 Hn He) as (r & t3 & E3).
    + simpl. pose proof (unassigned_commit P a v xv Hv). lia.
    + simpl. by apply insert_subseteq_l.
    + pose proof (rb_good_rb P (asg_ok P) (asg_ok_commit P) f t2 Hok2 He) as Hpost.
      rewrite E3 in Hpost. destruct Hpost as (_ & _ & HS3).
      destruct (HS3 r eq_refl) as (_ & _ & Hsize).
      rewrite (bind_ok _ _ _ _ _ E3), (Htruthy r Hsize). by exists r, t3.
  - assert (Hin' : xv ∈ vals) by (apply elem_of_cons in Hin as [->|?]; [congruence | done]).
    destruct (fst (is_assignment_valid _ v x a)) eqn:Eb.
    + set (t2 := mkSt (<[v:=x]> a) (nbrs t) (entries t)).
      rewrite (bind_ok _ _ _ _ _ (eq_refl : set_asg v x (mkSt a (nbrs t) (entries t))
                                             = (inr tt, t2))).
      assert (Hok2 : asg_ok P (<[v:=x]> a)) by (eapply asg_ok_commit; eauto; set_solver).
      pose proof (rb_good_rb P (asg_ok P) (asg_ok_commit P) f t2 Hok2 He) as Hpost.
      pose proof (nbrs_rb P f t2) as Hn3.
      destruct (rb_total P Hvars Hsel f t2 Hok2 Hn He) as (r & t3 & E3).
      { simpl. pose proof (unassigned_commit P a v x Hv). lia. }
      rewrite (bind_ok _ _ _ _ _ E3). rewrite E3 in Hpost, Hn3. simpl in Hpost, Hn3.
      destruct Hpost as (He3 & HN3 & HS3).
      destruct r as [y|].
      * destruct (HS3 y eq_refl) as (_ & _ & Hsize). rewrite (Htruthy y Hsize).
        by exists y, t3.
      * specialize (HN3 eq_refl). simpl.
        set (t4 := mkSt (delete v (asg t3)) (nbrs t3) (entries t3)).
        assert (Edel : del_asg v t3 = (inr tt, t4)).
        { unfold del_asg, t4. rewrite HN3. simpl. by rewrite lookup_insert_eq. }
        rewrite (bind_ok _ _ _ _ _ Edel). apply IHv; [| | exact He3 | set_solver | done].
        -- simpl. rewrite HN3. simpl. rewrite delete_insert_eq. by apply delete_id.
        -- simpl. eapply nbrs_ok_ext; [exact Hn | exact Hn3].
    + refine (IHv (mkSt a (nbrs t) (entries t)) _ _ _ _ _); simpl;
        [done | done | done | set_solver | done].
Qed.

Lemma rb_complete fuel :
  forall s, asg_ok P (asg s) -> nbrs_ok P (nbrs s) -> Forall (asg_ok P) (entries s) ->
  length (unassigned_of P (asg s)) < fuel -> asg s ⊆ sol ->
  exists r s', recursive_backtracking P fuel s = (inr (Some r), s').
Proof.
  induction fuel as [|f IH]; intros s Ha Hn He Hlen Hsub; [lia|]. simpl.
  set (s0 := {| asg := asg s; nbrs := nbrs s; entries := asg s :: entries s |}).
  rewrite (bind_ok _ _ _ _ _ (eq_refl : log_entry s = (inr tt, s0))).
  rewrite (bind_ok _ _ _ _ _ (eq_refl : get_asg s0 = (inr (asg s), s0))).
  destruct (size (asg s) =? length (variables P)) eqn:Ec.
  { do 2 eexists. reflexivity. }
  apply Nat.eqb_neq in Ec.
  destruct (select_total P s0 Hvars (Hsel _ Ha Ec)) as (v & s1 & E1).
  rewrite (bind_ok _ _ _ _ _ E1).
  pose proof (select_in P s0 v s1 E1) as Hv. simpl in Hv.
  pose proof (asg_eq_select P s0) as A1. pose proof (nbrs_select P s0) as N1.
  pose proof (entries_select P s0) as En1. rewrite E1 in A1, N1, En1.
  unfold asg_eq, nbrs_rel, entries_rel in A1, N1, En1. simpl in A1, N1, En1.
  pose proof Hv as Hv'. apply unassigned_of_spec in Hv' as [Hvl Hfree].
  assert (Hn1 : nbrs_ok P (nbrs s1)) by (eapply nbrs_ok_ext; eauto).
  destruct (order_total P v s1 (Hvars v Hvl) Hn1) as (vals & s2 & E2).
  rewrite (bind_ok _ _ _ _ _ E2).
  pose proof (order_restores P v s1 vals s2 E2) as A2.
  pose proof (nbrs_order P v s1) as N2. pose proof (entries_order P v s1) as En2.
  rewrite E2 in N2, En2. unfold asg_free, nbrs_rel, entries_rel in A2, N2, En2.
  simpl in N2, En2.
  destruct (order_in P v s1 vals s2 E2) as (d & Hd & Hperm).
  destruct (Hsol_vars v Hvl) as (xv & d' & Hxv & Hd' & Hxd).
  rewrite Hd in Hd'. injection Hd' as <-.
  apply (try_values_complete f v d xv IH (asg s));
    [done | lia | done | done | done | done | | | | | ].
  - rewrite A2; [done | by rewrite A1].
  - eapply nbrs_ok_ext; eauto.
  - rewrite En2, En1. by constructor.
  - intros x Hx. by rewrite <- Hperm.
  - by rewrite Hperm.
Qed.

End Complete.

(** X11: when every listed and every constrained variable has a domain and no
    variable is listed twice, [solve] returns an assignment whenever some
    assignment binds every listed variable to a value of its domain and
    satisfies every constraint it binds completely. *)
Theorem solve_complete (P : csp) (sol : assignment)
  (Hc : domains_complete P = true) (Hnd : NoDup (variables P))
  (Hsol : is_solution P sol = true) :
  exists r, fst (solve P) = inr (Some r).
Proof.
  destruct (domains_complete_spec P Hc) as [Hvars Hcvars].
  destruct (is_solution_spec P sol Hsol) as [Hsv Hsc].
  assert (Hsel : forall a, asg_ok P a -> size a <> length (variables P) ->
                   unassigned_of P a <> [])
    by (intros a Ha; apply nodup_unassigned; [done | by apply asg_ok_keys_in]).
  unfold solve.
  destruct (rb_complete P sol Hvars Hsel Hsv Hsc (S (length (variables P))) (init_state P))
    as (r & s' & E).
  - apply asg_ok_empty.
  - by apply graph_nbrs_ok.
  - constructor.
  - simpl. pose proof (unassigned_of_length P ∅). lia.
  - apply map_empty_subseteq.
  - exists r. by rewrite E.
Qed.

Lemma solve_complete_witness :
  is_solution example (list_to_map [("A", 1); ("B", 2); ("C", 3); ("D", 1); ("E", 3)]%string%Z)
    = true /\
  exists r, fst (solve example) = inr (Some r).
Proof.
  split; [vm_compute; reflexivity|].
  apply (solve_complete example
           (list_to_map [("A", 1); ("B", 2); ("C", 3); ("D", 1); ("E", 3)]%string%Z)).
  - vm_compute. reflexivity.
  - apply (bool_decide_unpack (NoDup (variables example))). vm_compute. exact I.
  - vm_compute. reflexivity.
Defined.

(** X13: when every listed and every constrained variable has a domain and no
    variable is listed twice, [solve] raises no exception. *)
Theorem solve_no_exception (P : csp)
  (Hc : domains_complete P = true) (Hnd : NoDup (variables P)) :
  exists r, fst (solve P) = inr r.
Proof.
  destruct (solve_total P Hc) as (r & E & _).
  - intros a Ha. apply nodup_unassigned; [done | by apply asg_ok_keys_in].
  - eauto.
Qed.

Lemma solve_no_exception_witness :
  fst (solve mrv_csp) = inr (Some (list_to_map [("A", 1); ("B", 1); ("C", 1)]%string%Z)) /\
  exists r, fst (solve mrv_csp) = inr r.
Proof.
  split; [vm_compute; reflexivity|].
  apply solve_no_exception.
  - vm_compute. reflexivity.
  - apply (bool_decide_unpack (NoDup (variables mrv_csp))). vm_compute. exact I.
Defined.

(** ** Recursion depth *)

Lemma nf_ret {A} (x : A) : no_fuel_out (ret x).
Proof. intros s. discriminate. Qed.

Lemma nf_raise {A} e : e <> OutOfFuel -> no_fuel_out (@raise A e).
Proof. intros He s [= ->]. done. Qed.

Lemma nf_bind {A B} (m : M A) (f : A -> M B) :
  no_fuel_out m -> (forall x, no_fuel_out (f x)) -> no_fuel_out (bind m f).
Proof.
  intros Hm Hf s. specialize (Hm s). unfold bind.
  destruct (m s) as [[e|x] s']; simpl in *; [congruence | apply Hf].
Qed.

Lemma nf_mmap {A B} (f : A -> M B) l :
  (forall x, no_fuel_out (f x)) -> no_fuel_out (mmap f l).
Proof.
  intros Hf. induction l as [|x l IH]; simpl;
    [apply nf_ret | apply nf_bind; [done | intros y; apply nf_bind; [done | intros; apply nf_ret]]].
Qed.

Lemma nf_mfold {A B} (f : B -> A -> M B) acc l :
  (forall acc x, no_fuel_out (f acc x)) -> no_fuel_out (mfold f acc l).
Proof.
  intros Hf. revert acc. induction l as [|x l IH]; intros acc; simpl;
    [apply nf_ret | apply nf_bind; auto].
Qed.

Lemma nf_max_go {A} (key : A -> M nat) best kb l :
  (forall x, no_fuel_out (key x)) -> no_fuel_out (max_go key best kb l).
Proof.
  intros Hk. revert best kb. induction l as [|y l IH]; intros best kb; simpl;
    [apply nf_ret | apply nf_bind; [done | intros ky; destruct (kb <? ky); apply IH]].
Qed.

Lemma nf_max_by {A} (key : A -> M nat) l :
  (forall x, no_fuel_out (key x)) -> no_fuel_out (max_by key l).
Proof.
  intros Hk. destruct l as [|x l]; simpl;
    [by apply nf_raise | apply nf_bind; [done | intros; by apply nf_max_go]].
Qed.

Lemma nf_sorted_by {A} (key : A -> M nat) l :
  (forall x, no_fuel_out (key x)) -> no_fuel_out (sorted_by key l).
Proof. intros Hk. apply nf_bind; [by apply nf_mmap | intros; apply nf_ret]. Qed.

Section NoFuelOut.

Context (P : csp).

Lemma nf_get : no_fuel_out get_asg.
Proof. intros s. discriminate. Qed.
Lemma nf_set v x : no_fuel_out (set_asg v x).
Proof. intros s. discriminate. Qed.
Lemma nf_del v : no_fuel_out (del_asg v).
Proof. intros s. unfold del_asg. by destruct (asg s !! v). Qed.
Lemma nf_nb v : no_fuel_out (neighbors_of v).
Proof. intros s. unfold neighbors_of. by destruct (nbrs s !! v). Qed.
Lemma nf_dom v : no_fuel_out (domain_of P v).
Proof. intros s. unfold domain_of. by destruct (domains P !! v). Qed.
Lemma nf_valid v x : no_fuel_out (is_valid P v x).
Proof. intros s. by rewrite is_valid_run. Qed.

Lemma nf_select : no_fuel_out (select_next_variable P).
Proof.
  apply nf_bind; [apply nf_get | intros a]. apply nf_bind.
  - apply nf_sorted_by. intros x. apply nf_bind; [apply nf_dom | intros; apply nf_ret].
  - intros l. apply nf_max_by. intros x. apply nf_bind; [apply nf_nb | intros; apply nf_ret].
Qed.

Lemma nf_count_conflicts v x : no_fuel_out (count_conflicts P v x).
Proof.
  rewrite count_conflicts_unfold.
  apply nf_bind; [apply nf_set | intros _]. apply nf_bind; [apply nf_nb | intros ns].
  apply nf_bind; [| intros cc; apply nf_bind; [apply nf_del | intros; apply nf_ret]].
  apply nf_mfold. intros acc w. unfold conflicts_step.
  apply nf_bind; [apply nf_get | intros a]. destruct (decide _); [|apply nf_ret].
  apply nf_bind; [| intros; apply nf_ret]. unfold neighbor_conflicts.
  apply nf_bind; [apply nf_dom | intros d]. apply nf_mfold. intros n y.
  apply nf_bind; [apply nf_valid | intros; apply nf_ret].
Qed.

Lemma nf_order v : no_fuel_out (order_values_by_least_conflicts P v).
Proof.
  apply nf_bind; [apply nf_dom | intros d]. apply nf_sorted_by. apply nf_count_conflicts.
Qed.

(** The bound carried down the recursion: either fewer unassigned entries
    of the variable list than the fuel, or as many, with every binding
    accounted for by exactly one entry of the list. *)
Definition depth_inv (f : nat) (a : assignment) : Prop :=
  length (unassigned_of P a) < f \/
  (length (unassigned_of P a) <= f /\
   length (unassigned_of P a) + size a = length (variables P)).

Lemma depth_inv_commit f a v x :
  v ∈ unassigned_of P a -> depth_inv (S f) a -> depth_inv f (<[v := x]> a).
Proof.
  intros Hv Hinv. pose proof (unassigned_commit P a v x Hv) as Hlt.
  apply unassigned_of_spec in Hv as [_ Hfree].
  unfold depth_inv. rewrite map_size_insert_None by done.
  destruct Hinv as [Hinv | [Hle Heq]]; [left; lia|].
  destruct (decide (length (unassigned_of P (<[v:=x]> a)) + 1 =
                    length (unassigned_of P a))); [right | left]; lia.
Qed.

Lemma try_values_no_fuel_out f v
  (IH : forall s, depth_inv f (asg s) ->
        fst (recursive_backtracking P f s) <> inl OutOfFuel) a :
  v ∈ unassigned_of P a -> depth_inv (S f) a ->
  forall vals t, asg t = a ->
  fst (try_values P (recursive_backtracking P f) v vals t) <> inl OutOfFuel.
Proof.
  intros Hv Hinv. pose proof Hv as Hv'. apply unassigned_of_spec in Hv' as [_ Hfree].
  induction vals as [|x vals IHv]; intros t Hta; simpl; [discriminate|].
  rewrite (bind_ok _ _ _ _ _ (is_valid_run P v x t)), Hta, (delete_id _ _ Hfree).
  destruct (fst (is_assignment_valid _ v x a)).
  - set (t2 := mkSt (<[v:=x]> a) (nbrs t) (entries t)).
    rewrite (bind_ok _ _ _ _ _ (eq_refl : set_asg v x (mkSt a (nbrs t) (entries t))
                                           = (inr tt, t2))).
    assert (Htrue : Forall (fun _ => True) (entries t2)) by (by apply Forall_forall).
    pose proof (rb_good_rb P (fun _ => True) (fun _ _ _ _ _ _ _ _ _ _ => I) f t2 I Htrue)
      as Hpost.
    specialize (IH t2 (depth_inv_commit f a v x Hv Hinv)).
    destruct (recursive_backtracking P f t2) as [[e|res] t3] eqn:E3.
    + by rewrite (bind_err _ _ _ _ _ E3).
    + rewrite (bind_ok _ _ _ _ _ E3). simpl in Hpost. destruct Hpost as (_ & HN3 & HS3).
      destruct res as [y|].
      * destruct (truthy (Some y)) eqn:Et; [discriminate|].
        destruct (HS3 y eq_refl) as (Hy & _ & _).
        simpl in Et. apply negb_false_iff, Nat.eqb_eq, map_size_empty_iff in Et.
        assert (Edel : del_asg v t3 = (inl KeyError, t3))
          by (unfold del_asg; by rewrite Hy, Et, lookup_empty).
        by rewrite (bind_err _ _ _ _ _ Edel).
      * specialize (HN3 eq_refl). simpl.
        assert (Edel : del_asg v t3 = (inr tt, mkSt (delete v (asg t3)) (nbrs t3) (entries t3)))
          by (unfold del_asg; rewrite HN3; simpl; by rewrite lookup_insert_eq).
        rewrite (bind_ok _ _ _ _ _ Edel). apply IHv. simpl. rewrite HN3. simpl.
        rewrite delete_insert_eq. by apply delete_id.
  - by apply (IHv (mkSt a (nbrs t) (entries t))).
Qed.

Lemma rb_no_fuel_out fuel : forall s, depth_inv fuel (asg s) ->
  fst (recursive_backtracking P fuel s) <> inl OutOfFuel.
Proof.
  induction fuel as [|f IH]; intros s Hinv; simpl;
    set (s0 := {| asg := asg s; nbrs := nbrs s; entries := asg s :: entries s |});
    rewrite (bind_ok _ _ _ _ _ (eq_refl : log_entry s = (inr tt, s0)));
    rewrite (bind_ok _ _ _ _ _ (eq_refl : get_asg s0 = (inr (asg s), s0)));
    destruct (size (asg s) =? length (variables P)) eqn:Es; try discriminate.
  { apply Nat.eqb_neq in Es. unfold depth_inv in Hinv. lia. }
  pose proof (nf_select s0) as N1.
  destruct (select_next_variable P s0) as [[e|v] s1] eqn:E1.
  { rewrite (bind_err _ _ _ _ _ E1). try rewrite E1 in N1. simpl in *. congruence. }
  rewrite (bind_ok _ _ _ _ _ E1).
  pose proof (select_in P s0 v s1 E1) as Hv. simpl in Hv.
  pose proof (asg_eq_select P s0) as A1. rewrite E1 in A1. unfold asg_eq in A1. simpl in A1.
  pose proof (nf_order v s1) as N2.
  destruct (order_values_by_least_conflicts P v s1) as [[e|vals] s2] eqn:E2.
  { rewrite (bind_err _ _ _ _ _ E2). try rewrite E2 in N2. simpl in *. congruence. }
  rewrite (bind_ok _ _ _ _ _ E2).
  pose proof (order_restores P v s1 vals s2 E2) as A2. unfold asg_free in A2.
  apply (try_values_no_fuel_out f v IH (asg s)); [done | done |].
  apply unassigned_of_spec in Hv as [_ Hfree]. rewrite A2; [done | by rewrite A1].
Qed.

End NoFuelOut.

(** One more unit of fuel changes nothing in a run that does not stop for
    lack of fuel. *)
Lemma try_values_fuel_mono P (R1 R2 : M (option assignment)) v
  (HR : forall t, fst (R2 t) <> inl OutOfFuel -> R1 t = R2 t) :
  forall vals t, fst (try_values P R2 v vals t) <> inl OutOfFuel ->
  try_values P R1 v vals t = try_values P R2 v vals t.
Proof.
  induction vals as [|x vals IH]; intros t Ht; [done|]. simpl in *.
  unfold bind in *. destruct (is_valid P v x t) as [[e|ok] t1]; [done|].
  destruct ok; [|by apply IH].
  destruct (set_asg v x t1) as [[e|[]] t2]; [done|].
  destruct (R2 t2) as [[e|res] t3] eqn:E2.
  - rewrite (HR t2); [by rewrite E2 | by rewrite E2].
  - rewrite (HR t2); [rewrite E2 | by rewrite E2].
    destruct (truthy res); [done|].
    destruct (del_asg v t3) as [[e|[]] t4]; [done|]. by apply IH.
Qed.

Lemma rb_fuel_mono P fuel : forall s,
  fst (recursive_backtracking P fuel s) <> inl OutOfFuel ->
  recursive_backtracking P (S fuel) s = recursive_backtracking P fuel s.
Proof.
  induction fuel as [|f IH]; intros s Hs.
  - simpl in *. unfold bind in *. simpl in *.
    destruct (size (asg s) =? length (variables P)); [done|]. by destruct Hs.
  - remember (S f) as g eqn:Eg. simpl. rewrite Eg in Hs |- *. simpl in Hs |- *.
    unfold bind in Hs |- *. simpl in Hs |- *.
    destruct (size (asg s) =? length (variables P)); [done|].
    destruct (select_next_variable P _) as [[e|v] s1]; [done|].
    destruct (order_values_by_least_conflicts P v s1) as [[e|vals] s2]; [done|].
    apply try_values_fuel_mono; [|done].
    intros t Ht. rewrite <- (IH t Ht). subst g. reflexivity.
Qed.

(** X12: the recursive search started by [solve()] never nests more than
    [len(variables) + 1] calls: the same search with one unit of fuel less,
    where a call at depth [len(variables) + 1] can only return at its size
    test, never runs out of fuel and gives exactly the result and the final
    state of [solve()]. *)
Theorem solve_depth_bounded (P : csp) :
  fst (recursive_backtracking P (length (variables P)) (init_state P)) <> inl OutOfFuel /\
  solve P = recursive_backtracking P (length (variables P)) (init_state P).
Proof.
  assert (H : fst (recursive_backtracking P (length (variables P)) (init_state P))
              <> inl OutOfFuel).
  { apply rb_no_fuel_out. right. simpl. rewrite map_size_empty.
    assert (Hall : unassigned_of P ∅ = variables P).
    { unfold unassigned_of. induction (variables P) as [|u l IHl]; [done|].
      rewrite filter_cons, decide_True by apply lookup_empty. by rewrite IHl. }
    rewrite Hall. lia. }
  split; [done|]. unfold solve. by apply rb_fuel_mono.
Qed.

(** ** Constraints over unlisted variables *)

(** C9 (amended): nothing validates the constraint tuples. The constructor
    registers a variable of a tuple that is not in the variable list in the
    neighbour mapping like any other. When every listed and every
    constrained variable has a domain entry and no variable is listed twice,
    [solve()] raises no error. The unlisted variable is unbound in the
    assignment at the entry of every call of [_recursive_backtracking] and
    in the returned assignment; so whenever the search tries a value for a
    listed variable, the tuple of the constraint is not fully bound and the
    constraint cannot reject the value. *)
Theorem unlisted_variable_never_bound (P : csp) (c : constraint) (z : var)
  (Hc : c ∈ constraints P) (Hz : z ∈ c_vars c) (Hnz : z ∉ variables P) :
  is_Some (create_constraint_graph (constraints P) !! z) /\
  (domains_complete P = true -> NoDup (variables P) ->
   exists r, fst (solve P) = inr r) /\
  Forall (fun a => a !! z = None /\
            forall v x, v ∈ variables P -> tuple_values (<[v := x]> a) (c_vars c) = None)
    (entries (snd (solve P))) /\
  match fst (solve P) with
  | inr (Some r) => r !! z = None
  | _ => True
  end.
Proof.
  assert (Hfree : forall a, keys_in P a -> a !! z = None).
  { intros a Ha. destruct (a !! z) eqn:E; [|done].
    exfalso. apply Hnz, Ha. by rewrite E. }
  split_and!.
  - unfold create_constraint_graph. rewrite graph_keys_gen. right. by exists c.
  - intros Hdc Hnd. destruct (solve_total P Hdc) as (r & E & _).
    + intros a Ha. apply nodup_unassigned; [done | by apply asg_ok_keys_in].
    + eauto.
  - unfold solve.
    destruct (rb_good_rb P (keys_in P) (keys_in_commit P)
                (S (length (variables P))) (init_state P)) as (Hent & _ & _).
    + apply keys_in_empty.
    + constructor.
    + eapply Forall_impl; [exact Hent|]. intros a Ha. apply Hfree in Ha.
      split; [done|]. intros v x Hv. apply tuple_values_None. exists z.
      split; [done|]. rewrite lookup_insert_ne; [done|].
      intros ->. by apply Hnz.
  - unfold solve.
    destruct (rb_good_rb P (keys_in P) (keys_in_commit P)
                (S (length (variables P))) (init_state P)) as (_ & _ & Hsome).
    + apply keys_in_empty.
    + constructor.
    + destruct (recursive_backtracking P _ _) as [[e|[r|]] s'] eqn:E; try done.
      destruct (Hsome r eq_refl) as (_ & Hr & _). by apply Hfree.
Qed.

Lemma unlisted_variable_never_bound_witness :
  is_Some (create_constraint_graph (constraints unlisted_csp) !! "Z"%string) /\
  (domains_complete unlisted_csp = true -> NoDup (variables unlisted_csp) ->
   exists r, fst (solve unlisted_csp) = inr r) /\
  Forall (fun a => a !! "Z"%string = None /\
            forall v x, v ∈ variables unlisted_csp ->
              tuple_values (<[v := x]> a) ["A"; "Z"]%string = None)
    (entries (snd (solve unlisted_csp))) /\
  match fst (solve unlisted_csp) with
  | inr (Some r) => r !! "Z"%string = None
  | _ => True
  end.
Proof.
  apply (unlisted_variable_never_bound unlisted_csp
           (mkConstraint ["A"; "Z"]%string never) "Z"%string).
  - vm_compute. left.
  - vm_compute. right. left.
  - apply (bool_decide_unpack ("Z"%string ∉ variables unlisted_csp)). vm_compute. exact I.
Defined.

(** C9 counterexample: a constraint over [("A", "Z")] with [Z] outside
    the variable list raises nothing; [solve()] returns [{"A": 1}]. *)
Lemma unlisted_variable_no_error_counterexample :
  fst (solve unlisted_csp) = inr (Some {["A"%string := 1%Z]}).
Proof. vm_compute. reflexivity. Qed.
